(** * GPUPolyaUrnLDA: the concurrent count table, the offsets scan,
      the column sums and the queue-pair push

    A shallow embedding of the device code of the repository:
    - the bit-packed [HashMap] of [src/unnamed/part_001] (entry packing,
      the two hash functions, [key_distance], [allocate], [init],
      [resize], [get2], [try_insert2], [insert2]);
    - [compute_d_idx] and the loop over words of [sample_topics], of
      [src/unnamed/part_000];
    - [block_reduce_sum], the two kernels [polya_urn_colsums] (of which
      [sample_phi] in [src/unnamed/part_002] launches the one with
      [alpha]), [polya_urn_sample] and [polya_urn_reset] of
      [src/src/cu/warpsample.cuh];
    - [warp_lane_id_bits], [warp_lane_offset] and
      [warp_queue_pair_push] of [src/src/cu/poisson.cu].

    Machine integers are [Z] with the wrap-around written out, and
    table storage is a [list Z] of 64-bit words read and written by
    index.  Values of type [f32] are rationals: exact in the column
    sums, rounded by a parameter in the test of the draw.  A half warp
    is followed as one agent that owns its table, so that a compare and
    swap is never contended. *)

From Stdlib Require Import ZArith List Lia Bool QArith.
From stdpp Require Import base option list.
Import ListNotations.
Local Open Scope Z_scope.

(** ** Machine words *)

Module Word.

Definition u32 (x : Z) : Z := x mod 2 ^ 32.
Definition u64 (x : Z) : Z := x mod 2 ^ 64.
(** Two's complement reading of the low 32 bits. *)
Definition i32 (x : Z) : Z := (x + 2 ^ 31) mod 2 ^ 32 - 2 ^ 31.

(** [__ballot]: bit [i] of the result is the vote of lane [i]. *)
Fixpoint ballot (votes : list bool) : Z :=
  match votes with
  | [] => 0
  | v :: rest => 2 * ballot rest + Z.b2z v
  end.

Fixpoint ffs_from (n : nat) (i : Z) (x : Z) : Z :=
  match n with
  | O => 0
  | S n' => if Z.testbit x i then i + 1 else ffs_from n' (i + 1) x
  end.

(** [__ffs]: one-based position of the lowest set bit, 0 for 0. *)
Definition ffs (x : Z) : Z := ffs_from 32 0 x.

Fixpoint popc_from (n : nat) (i : Z) (x : Z) : Z :=
  match n with
  | O => 0
  | S n' => Z.b2z (Z.testbit x i) + popc_from n' (i + 1) x
  end.

(** [__popc] on a 32-bit word. *)
Definition popc (x : Z) : Z := popc_from 32 0 x.

(** The number of lanes that voted. *)
Definition count_votes (votes : list bool) : Z :=
  fold_right (fun v acc => Z.b2z v + acc) 0 votes.

End Word.
Import Word.

(** The wrappers are unfolded last when two terms are compared. *)
Strategy 1000 [u32 i32 u64].

(** ** The bit-packed hash map *)

Module HashMap.

Definition GPULDA_HASH_LINE_SIZE : Z := 16.
Definition GPULDA_HASH_MAX_NUM_LINES : Z := 4.
(** [warpSize / 2]. *)
Definition half_warp : Z := 16.

(** The fields of [struct HashMap].  [data] is the aligned storage,
    [data_non_aligned] records whether the pointer returned by [malloc]
    is non-null. *)
Record t : Type := mk {
  size : Z;
  capacity : Z;
  data : list Z;
  data_non_aligned : bool;
  a : Z;
  b : Z;
  c : Z;
  d : Z;
  rebuild : Z
}.

(** [bfe.u64]: the field of [num_bits] bits of [source] that starts at
    [bit_start]. *)
Definition bfe_b64 (source bit_start num_bits : Z) : Z :=
  Z.land (Z.shiftr source bit_start) (Z.ones num_bits).

(** [bfi.b64 ret, y, x, bit_start, num_bits]: [x] with the low
    [num_bits] bits of [y] inserted at [bit_start]. *)
Definition bfi_b64 (x y bit_start num_bits : Z) : Z :=
  u64 (Z.lor (Z.ldiff x (Z.shiftl (Z.ones num_bits) bit_start))
             (Z.shiftl (Z.land y (Z.ones num_bits)) bit_start)).

Definition entry (key value : Z) : Z := bfi_b64 value key 32 32.
Definition with_key (key entry : Z) : Z := bfi_b64 entry key 32 32.
Definition with_value (value entry : Z) : Z := bfi_b64 entry value 0 32.
Definition key (entry : Z) : Z := u32 (bfe_b64 entry 32 32).
Definition value (entry : Z) : Z := u32 (bfe_b64 entry 0 32).
Definition empty : Z := 0xffffffff00000000.

(** [(((a * key + b) % 334214459) % (capacity / LINE)) * LINE]: the
    product and the sum are unsigned 32-bit, the quotient
    [capacity / LINE] is signed and converted, the result is returned as
    [i32]. *)
Definition hash_slot (m : t) (k : Z) : Z :=
  i32 (u32 ((u32 (a m * k + b m) mod 334214459
             mod u32 (capacity m `quot` GPULDA_HASH_LINE_SIZE))
            * GPULDA_HASH_LINE_SIZE)).

Definition hash_stride (m : t) (k : Z) : Z :=
  i32 (u32 ((u32 (c m * k + d m) mod 334214459
             mod u32 (capacity m `quot` GPULDA_HASH_LINE_SIZE))
            * GPULDA_HASH_LINE_SIZE)).

(** The loop of [key_distance] runs over [i = 0 .. MAX_NUM_LINES - 2]
    in unsigned arithmetic and falls through to [MAX_NUM_LINES]. *)
Definition key_distance (m : t) (k slot : Z) : Z :=
  let initial_slot := u32 (hash_slot m k) in
  let stride := u32 (hash_stride m k) in
  match find (fun i => u32 (initial_slot + u32 (i * stride))
                         mod u32 (capacity m) =? slot)
             [0; 1; 2] with
  | Some i => i
  | None => GPULDA_HASH_MAX_NUM_LINES
  end.

(** *** Storage access *)

(** [data[idx]]; [None] is an access outside the storage. *)
Definition load (dat : list Z) (idx : Z) : option Z :=
  if idx <? 0 then None else dat !! Z.to_nat idx.

Definition half_lanes : list Z :=
  [0; 1; 2; 3; 4; 5; 6; 7; 8; 9; 10; 11; 12; 13; 14; 15].

(** Every lane of the half warp reads [data[slot + half_lane_idx]]. *)
Definition read_line (dat : list Z) (slot : Z) : option (list Z) :=
  mapM (fun half_lane_idx => load dat (slot + half_lane_idx)) half_lanes.

(** [half_lane_idx < warpSize/2 ? 0x0000ffff : 0xffff0000].  Since
    [half_lane_idx] is [threadIdx.x % (warpSize/2)], every lane computes
    the same mask; the model takes it from lane 0. *)
Definition half_lane_mask (half_lane_idx : Z) : Z :=
  if half_lane_idx <? half_warp then 0x0000ffff else 0xffff0000.

(** [__shfl(x, src, warpSize/2)] within the half warp whose lanes hold
    [xs]. *)
Definition shfl (xs : list Z) (src : Z) : Z :=
  nth (Z.to_nat (src mod half_warp)) xs 0.

(** *** Lookup *)

(** [(initial_slot + i * stride) % capacity] in [i32]. *)
Definition probe_slot (m : t) (initial_slot stride i : Z) : Z :=
  i32 (initial_slot + i32 (i * stride)) `rem` capacity m.

(** What the half warp decides on the line it read at probe index [i]:
    [Some v] is [return v], [None] goes on to the next line. *)
Definition get2_line (m : t) (half_warp_key slot i : Z) (line : list Z)
    : option Z :=
  let key_found :=
    Z.land (ballot (map (fun e => key e =? half_warp_key) line))
           (half_lane_mask 0) in
  if negb (key_found =? 0) then
    Some (shfl (map value line) (ffs key_found - 1))
  else
    let no_key :=
      Z.land (ballot (map (fun e => (e =? empty)
                             || (key_distance m (key e) (u32 slot) <? i))
                          line))
             (half_lane_mask 0) in
    if negb (no_key =? 0) then Some 0 else None.

(** The loop of [get2], from probe index [i], for [n] more lines.  The
    result [None] is an access outside the storage. *)
Fixpoint get2_loop (m : t) (half_warp_key initial_slot stride i : Z)
    (n : nat) : option Z :=
  match n with
  | O => Some 0
  | S n' =>
    let slot := probe_slot m initial_slot stride i in
    match read_line (data m) slot with
    | None => None
    | Some line =>
      match get2_line m half_warp_key slot i line with
      | Some v => Some v
      | None => get2_loop m half_warp_key initial_slot stride (i + 1) n'
      end
    end
  end.

Definition get2 (m : t) (half_warp_key : Z) : option Z :=
  get2_loop m half_warp_key (hash_slot m half_warp_key)
    (hash_stride m half_warp_key) 0
    (Z.to_nat GPULDA_HASH_MAX_NUM_LINES).

(** *** Allocation *)

(** What one call of [allocate] obtains from its environment: whether
    [malloc] returned a non-null pointer, the words found in the fresh
    storage, and the four hash parameters
    [__float2uint_rz(capacity * r)] computed from the variates of
    [curand_uniform4]. *)
Record alloc : Type := mk_alloc {
  malloc_ok : bool;
  fresh : nat -> Z;
  draw_a : Z;
  draw_b : Z;
  draw_c : Z;
  draw_d : Z
}.

Definition allocate (o : alloc) (allocate_capacity : Z) : t :=
  let cap := (allocate_capacity `quot` GPULDA_HASH_LINE_SIZE)
             * GPULDA_HASH_LINE_SIZE in
  {| size := 0;
     capacity := cap;
     data := if malloc_ok o then map (fresh o) (seq 0 (Z.to_nat cap)) else [];
     data_non_aligned := malloc_ok o;
     a := i32 (draw_a o);
     b := i32 (draw_b o);
     c := i32 (draw_c o);
     d := i32 (draw_d o);
     rebuild := 0 |}.

Definition set_data (m : t) (dat : list Z) : t :=
  {| size := size m; capacity := capacity m; data := dat;
     data_non_aligned := data_non_aligned m;
     a := a m; b := b m; c := c m; d := d m; rebuild := rebuild m |}.

Definition set_size (m : t) (n : Z) : t :=
  {| size := n; capacity := capacity m; data := data m;
     data_non_aligned := data_non_aligned m;
     a := a m; b := b m; c := c m; d := d m; rebuild := rebuild m |}.

Definition set_rebuild (m : t) (r : Z) : t :=
  {| size := size m; capacity := capacity m; data := data m;
     data_non_aligned := data_non_aligned m;
     a := a m; b := b m; c := c m; d := d m; rebuild := r |}.

(** [init]: status 1 when the allocation failed, otherwise every slot
    below [capacity] is set to [empty()] and the status is 0. *)
Definition init (o : alloc) (initial_capacity : Z) : Z * t :=
  let m := allocate o initial_capacity in
  if negb (data_non_aligned m) then (1, m)
  else (0, set_data m (map (fun _ => empty) (data m))).

(** *** Insertion *)

(** Result of running device code: a value, an access outside the
    storage, or a loop cut off by the step bound of the model. *)
Inductive run (A : Type) : Type :=
  | Ret (x : A)
  | OutOfBounds
  | Timeout.
Arguments Ret {A} x.
Arguments OutOfBounds {A}.
Arguments Timeout {A}.

Definition run_bind {A B : Type} (r : run A) (k : A -> run B) : run B :=
  match r with
  | Ret x => k x
  | OutOfBounds => OutOfBounds
  | Timeout => Timeout
  end.

(** [atomicCAS(&data[idx], compare, val)]: the old word, and the storage
    after the exchange. *)
Definition atomicCAS (dat : list Z) (idx compare val : Z)
    : option (Z * list Z) :=
  old ← load dat idx;
  Some (old, if old =? compare then <[Z.to_nat idx := val]> dat else dat).

(** The registers of the half warp inside the loop of [try_insert2]. *)
Record regs : Type := mk_regs {
  half_warp_key : Z;
  diff : Z;
  slot : Z;
  stride : Z;
  distance : Z
}.

(** The two tails of the loop body of [try_insert2], "if swap
    succeeded, either exit or prepare new key" and "advance slot,
    declare failure if reached limit": [inl] is [break], [inr] goes
    round again. *)
Definition after_swap (m1 : t) (r : regs) (swap_success : bool)
    (key_found key_empty no_key swap_idx thread_new_entry : Z)
    : t + t * regs :=
  if swap_success && negb (key_found =? 0) then inl m1
  else if swap_success && negb (key_empty =? 0) then
    inl (set_size m1 (i32 (size m1 + 1)))
  else
    let r1 :=
      if swap_success then
        let k := key thread_new_entry in
        {| half_warp_key := k;
           diff := i32 (value thread_new_entry);
           slot := slot r;
           stride := hash_stride m1 k;
           distance := key_distance m1 k (u32 (slot r)) |}
      else r in
    if (swap_idx =? -1) || (swap_success && negb (no_key =? 0)) then
      let r2 :=
        {| half_warp_key := half_warp_key r1;
           diff := diff r1;
           slot := i32 (slot r1 + stride r1) `rem` capacity m1;
           stride := stride r1;
           distance := i32 (distance r1 + 1) |} in
      if distance r2 =? GPULDA_HASH_MAX_NUM_LINES then
        inl (set_rebuild m1 (Z.lor (rebuild m1) 1))
      else inr (m1, r2)
    else inr (m1, r1).

(** One pass through the body of the [while(true)] loop of
    [try_insert2].  The half warp is followed as one agent: key, delta,
    slot, stride and distance are the same in every lane and the three
    ballots are taken over its sixteen lanes.  The source shuffles
    [swap_success] from the lane [swap_idx] without assigning the
    result; the model lets the whole half warp continue with the value
    held by the lane that performed the compare and swap. *)
Definition try_insert2_body (m : t) (r : regs) : option (t + t * regs) :=
  line ← read_line (data m) (slot r);
  let key_found :=
    Z.land (ballot (map (fun e => key e =? half_warp_key r) line))
           (half_lane_mask 0) in
  let key_empty :=
    Z.land (ballot (map (fun e => e =? empty) line)) (half_lane_mask 0) in
  let no_key :=
    Z.land (ballot (map (fun e => key_distance m (key e) (u32 (slot r))
                                  <? distance r) line))
           (half_lane_mask 0) in
  let swap_idx :=
    if negb (key_found =? 0) then (ffs key_found - 1) `rem` half_warp
    else if negb (key_empty =? 0) then (ffs key_empty - 1) `rem` half_warp
    else if negb (no_key =? 0) then (ffs no_key - 1) `rem` half_warp
    else -1 in
  let thread_entry := shfl line swap_idx in
  let thread_new_entry :=
    if negb (key_found =? 0) then
      with_value thread_entry (u32 (value thread_entry + diff r))
    else entry (half_warp_key r) (u32 (Z.max (diff r) 0)) in
  '(swap_success, dat) ←
    (if swap_idx =? -1 then Some (false, data m)
     else '(old, dat) ← atomicCAS (data m) (slot r + swap_idx)
                          thread_entry thread_new_entry;
          Some (thread_entry =? old, dat));
  Some (after_swap (set_data m dat) r swap_success
          key_found key_empty no_key swap_idx thread_new_entry).

Fixpoint try_insert2_loop (fuel : nat) (m : t) (r : regs) : run t :=
  match fuel with
  | O => Timeout
  | S fuel' =>
    match try_insert2_body m r with
    | None => OutOfBounds
    | Some (inl m') => Ret m'
    | Some (inr (m', r')) => try_insert2_loop fuel' m' r'
    end
  end.

Definition try_insert2 (fuel : nat) (m : t) (k df : Z) : run t :=
  try_insert2_loop fuel m
    {| half_warp_key := k; diff := df; slot := hash_slot m k;
       stride := hash_stride m k; distance := 0 |}.

(** *** Growth *)

(** Rounding of a positive integer [n] (standing for [n * 2^e]) to the
    24-bit significand of a 32-bit float, to nearest, ties to even:
    the new significand and the amount added to the exponent. *)
Definition f32_round (n : Z) : Z * Z :=
  let bits := Z.log2 n + 1 in
  if bits <=? 24 then (n, 0)
  else
    let sh := bits - 24 in
    let q := Z.shiftr n sh in
    let r := n mod 2 ^ sh in
    let half := 2 ^ (sh - 1) in
    let q' := if (half <? r) || ((r =? half) && Z.odd q) then q + 1 else q in
    (q', sh).

(** [__float2uint_rz(capacity * GPULDA_HASH_GROWTH_RATE)]: the capacity
    is converted to float, multiplied by [1.2f = 10066330 * 2^-23] and
    the rounded product is truncated. *)
Definition grow (cap : Z) : Z :=
  if cap <=? 0 then 0
  else
    let '(m1, e1) := f32_round cap in
    let '(m2, e2) := f32_round (m1 * 10066330) in
    let e := e1 + e2 - 23 in
    u32 (if 0 <=? e then m2 * 2 ^ e else Z.shiftr m2 (- e)).

(** The entries handed to [try_insert2] by the migration loop of
    [resize]: for every [i] below [(old_capacity / blockDim.x + 1) *
    blockDim.x] the word [old_data[i]] (or [empty()] past the old
    capacity) is shuffled through [__shfl] into the [i32] variable
    [half_warp_entry], which [key] and [value] then read back as a
    sign-extended 64-bit word.  The half warps of the block are run one
    after the other, in index order. *)
Definition migrated (blockDim old_capacity : Z) (old_data : list Z)
    : list (Z * Z) :=
  map (fun i =>
         let lane_entry :=
           if Z.of_nat i <? old_capacity
           then nth i old_data 0 else empty in
         let half_warp_entry := i32 lane_entry in
         (key (u64 half_warp_entry), i32 (value (u64 half_warp_entry))))
      (seq 0 (Z.to_nat ((old_capacity / blockDim + 1) * blockDim))).

Fixpoint insert_all (fuel : nat) (m : t) (ops : list (Z * Z)) : run t :=
  match ops with
  | [] => Ret m
  | (k, df) :: rest =>
    run_bind (try_insert2 fuel m k df) (fun m' => insert_all fuel m' rest)
  end.

(** The [do ... while(rebuild != false)] loop of [resize].  Every turn
    consumes one answer of the allocator; the loop of the model stops
    with [Timeout] when the answers run out. *)
Fixpoint resize_loop (fuel : nat) (blockDim : Z) (allocs : list alloc)
    (m : t) (old_capacity : Z) (old_data : list Z)
    (half_warp_key half_warp_diff : Z) : run (Z * t) :=
  match allocs with
  | [] => Timeout
  | o :: allocs' =>
    let m1 := allocate o (i32 (u32 (grow (capacity m) + blockDim))) in
    if negb (data_non_aligned m1) then Ret (1, m1)
    else
      run_bind (try_insert2 fuel m1 half_warp_key half_warp_diff) (fun m2 =>
      run_bind (insert_all fuel m2 (migrated blockDim old_capacity old_data))
        (fun m3 =>
      if negb (rebuild m3 =? 0)
      then resize_loop fuel blockDim allocs' m3 old_capacity old_data
             half_warp_key half_warp_diff
      else Ret (0, m3)))
  end.

Definition resize (fuel : nat) (blockDim : Z) (allocs : list alloc)
    (m : t) (half_warp_key half_warp_diff : Z) : run (Z * t) :=
  resize_loop fuel blockDim allocs m (capacity m) (data m)
    half_warp_key half_warp_diff.

Definition insert2 (fuel : nat) (blockDim : Z) (allocs : list alloc)
    (m : t) (half_warp_key df : Z) : run (Z * t) :=
  run_bind (if negb (df =? 0) then try_insert2 fuel m half_warp_key df
            else Ret m) (fun m1 =>
  if negb (rebuild m1 =? 0)
  then resize fuel blockDim allocs m1 half_warp_key df
  else Ret (0, m1)).

(** *** Invariants of the table *)

(** A table as [allocate] leaves it for a request of at least one line:
    the storage has [capacity] words, and the capacity is a positive
    multiple of the line size that leaves room for the probe arithmetic
    in [i32]. *)
Definition wf (m : t) : Prop :=
  capacity m = Z.of_nat (length (data m)) /\
  16 <= capacity m < 2 ^ 29 /\
  (16 | capacity m).

(** The slot probed for key [k] at probe index [i]. *)
Definition probe (m : t) (k i : Z) : Z :=
  probe_slot m (hash_slot m k) (hash_stride m k) i.

Definition live (e : Z) : bool := negb (e =? empty).

(** The line at [slot] lets a lookup at probe index [j] pass on: no lane
    is empty and no lane holds an entry whose displacement, as
    [key_distance] computes it, is below [j]. *)
Definition passes (m : t) (slot j : Z) : bool :=
  match read_line (data m) slot with
  | Some line =>
    forallb (fun e => negb ((e =? empty)
                            || (key_distance m (key e) (u32 slot) <? j)))
            line
  | None => false
  end.

(** Position [p] lies on the line at some probe index [i] of key [k],
    and every line before it on the probe sequence of [k] passes. *)
Definition placed (m : t) (p : nat) (k : Z) : bool :=
  existsb (fun i => (probe m k i =? 16 * (Z.of_nat p / 16))
                    && forallb (fun j => passes m (probe m k j) j) (seqZ 0 i))
          (seqZ 0 GPULDA_HASH_MAX_NUM_LINES).

(** No other position holds a live entry with key [k]. *)
Definition sole (m : t) (p : nat) (k : Z) : bool :=
  forallb (fun q =>
             let e' := nth q (data m) 0 in
             negb (live e') || negb (key e' =? k) || (q =? p)%nat)
          (seq 0 (length (data m))).

(** The Robin-Hood displacement invariant: every live entry carries a
    key other than that of the empty word, is placed, and is the only
    live entry with its key. *)
Definition robin_hood (m : t) : bool :=
  forallb (fun p =>
             let e := nth p (data m) 0 in
             negb (live e)
             || (negb (key e =? key empty)
                 && placed m p (key e) && sole m p (key e)))
          (seq 0 (length (data m))).

(** The registers of [try_insert2] point at a line of the table. *)
Definition regs_ok (m : t) (r : regs) : Prop :=
  (0 <= slot r < capacity m /\ (16 | slot r)) /\
  (0 <= stride r < capacity m /\ (16 | stride r)).

(** What one pass of the loop of [try_insert2] is expected to leave:
    no access outside the storage, a table of the same shape, and
    registers that point at a line again. *)
Definition body_post (res : option (t + t * regs)) : Prop :=
  match res with
  | None => False
  | Some (inl m') => wf m'
  | Some (inr (m', r')) => wf m' /\ regs_ok m' r'
  end.

(** Every index read by [get2] on probe index [i] in lane [l] lies in
    the storage. *)
Definition in_bounds (m : t) : Prop :=
  forall k i l, 0 <= i < GPULDA_HASH_MAX_NUM_LINES -> 0 <= l < half_warp ->
                0 <= probe m k i + l < capacity m.




(** The sum of the counts of the live entries. *)
Definition live_sum (m : t) : Z :=
  fold_right (fun e acc => (if live e then i32 (value e) else 0) + acc)
             0 (data m).

(** Two tables with the same capacity and the same hash parameters. *)
Definition same_hash (m m' : t) : Prop :=
  capacity m' = capacity m /\ a m' = a m /\ b m' = b m /\
  c m' = c m /\ d m' = d m.

(** *** The loop of [init] that empties the table *)

(** [data[idx] = x]; [None] is a write outside the storage. *)
Definition store_at (dat : list Z) (idx x : Z) : option (list Z) :=
  if (idx <? 0) || (Z.of_nat (length dat) <=? idx) then None
  else Some (<[Z.to_nat idx := x]> dat).

(** The loop "set map to empty" of [init], thread by thread: [offset]
    runs over [0 .. capacity / blockDim.x], an unsigned quotient, and
    [i = offset * blockDim.x + threadIdx.x] is computed in unsigned
    arithmetic and held in an [i32].  These are the [i] that pass the
    signed test [i < capacity]. *)
Definition init_indices (blockDim cap : Z) : list Z :=
  List.filter (fun i => i <? cap)
    (flat_map (fun threadIdx =>
                 map (fun offset =>
                        i32 (u32 (u32 (offset * blockDim) + threadIdx)))
                     (seqZ 0 (u32 (u32 cap / blockDim + 1))))
              (seqZ 0 blockDim)).

(** The storage after the loop, for a block of [blockDim] threads:
    every index that passes the test receives [empty()]. *)
Definition init_fill (blockDim : Z) (m : t) : option (list Z) :=
  fold_left (fun dat i => dat ← dat; store_at dat i empty)
            (init_indices blockDim (capacity m)) (Some (data m)).

End HashMap.

(** ** Sample tables *)

Module Samples.
Import HashMap.

(** An allocator answer: fresh storage full of one arbitrary word, and
    hash parameters that send even keys to the first line of a two-line
    table, odd keys to the second, with a stride of one line. *)
Definition parity_alloc : alloc :=
  {| malloc_ok := true; fresh := fun _ => 12345;
     draw_a := 1; draw_b := 0; draw_c := 0; draw_d := 1 |}.



Definition two_lines : t := snd (init parity_alloc 32).

(** [try_insert2] run for each operation in turn; a run that does not
    return leaves the table as it was. *)
Definition inserted (m : t) (ops : list (Z * Z)) : t :=
  match insert_all 64 m ops with
  | Ret m' => m'
  | _ => m
  end.

(** The sixteen even keys 0, 2, .., 30, one token each. *)
Definition even_keys : list (Z * Z) :=
  map (fun l => (2 * l, 1)) half_lanes.

(** The sixteen odd keys 1, 3, .., 31, one token each. *)
Definition odd_keys : list (Z * Z) :=
  map (fun l => (2 * l + 1, 1)) half_lanes.


(** Both lines full. *)
Definition full : t := inserted two_lines (even_keys ++ odd_keys).

(** Hash parameters that give key [k] the slot and the stride
    [(k mod lines) * 16]. *)
Definition spread_alloc : alloc :=
  {| malloc_ok := true; fresh := fun _ => empty;
     draw_a := 1; draw_b := 0; draw_c := 1; draw_d := 0 |}.

Definition four_lines : t := snd (init spread_alloc 64).




End Samples.

(** ** The offsets kernel and the loop over words *)

Module Topics.
Import HashMap.

Definition sumZ (l : list Z) : Z := fold_right Z.add 0 l.

(** The sum of the first [i] elements. *)
Definition prefix_sum (l : list Z) (i : nat) : Z := sumZ (take i l).

(** [cub::BlockScan::ExclusiveScan(input, output, 0, cub::Sum(),
    aggregate)] on [i32]: the thread at position [t] receives the sum of
    the inputs of the threads before it, and [aggregate] is the sum of
    all inputs. *)
Fixpoint ExclusiveScan_from (acc : Z) (inputs : list Z) : list Z * Z :=
  match inputs with
  | [] => ([], acc)
  | x :: rest =>
    let '(out, total) := ExclusiveScan_from (i32 (acc + x)) rest in
    (acc :: out, total)
  end.

Definition ExclusiveScan (inputs : list Z) : list Z * Z :=
  ExclusiveScan_from 0 inputs.

(** The two arrays of [compute_d_idx] in device memory. *)
Record arrays : Type := mk_arrays {
  d_len : list Z;
  d_idx : list Z
}.

(** [d_idx[i] = thread_d] for one thread. *)
Definition store (dst : list Z) (w : Z * Z) : list Z :=
  <[Z.to_nat (fst w) := snd w]> dst.

(** One turn of the loop of [compute_d_idx], for all threads of the
    block: thread [threadIdx] handles [i = threadIdx + offset *
    blockDim], contributes [d_len[i]] (or 0 past [n_docs]) to the scan,
    adds [initial_value] to what it receives and stores it to
    [d_idx[i]] when [i < n_docs].  The state is [initial_value] and the
    contents of [d_idx]. *)
Definition compute_d_idx_pass (blockDim n_docs : Z) (src : list Z)
    (st : Z * list Z) (offset : Z) : Z * list Z :=
  let '(initial_value, dst) := st in
  let threads := seqZ 0 blockDim in
  let idx := fun threadIdx => i32 (u32 (threadIdx + u32 (offset * blockDim))) in
  let inputs :=
    map (fun threadIdx =>
           if u32 (idx threadIdx) <? n_docs
           then i32 (nth (Z.to_nat (idx threadIdx)) src 0) else 0)
        threads in
  let '(scanned, total_value) := ExclusiveScan inputs in
  let writes :=
    map (fun threadIdx =>
           (idx threadIdx,
            u32 (i32 (nth (Z.to_nat threadIdx) scanned 0 + initial_value))))
        (List.filter (fun threadIdx => u32 (idx threadIdx) <? n_docs)
                     threads) in
  (i32 (total_value + initial_value), fold_left store writes dst).

(** [compute_d_idx] in block 0, with [offset] running over
    [0 .. n_docs / blockDim.x]. *)
Definition compute_d_idx (blockDim : Z) (mem : arrays) (n_docs : Z)
    : arrays :=
  {| d_len := d_len mem;
     d_idx := snd (fold_left (compute_d_idx_pass blockDim n_docs (d_len mem))
                             (seqZ 0 (n_docs / blockDim + 1))
                             (0, d_idx mem)) |}.

(** What the environment supplies for one token of [sample_topics]: the
    topic drawn for it (by [draw_wary_search] or [draw_alias]) and the
    answers of the allocator to the two calls of [insert2]. *)
Record draw : Type := mk_draw {
  new_z : Z;
  allocs_remove : list alloc;
  allocs_commit : list alloc
}.

(** The body of the loop over words of [sample_topics] for the half
    warp that carries the deltas ([lane_idx < 16]): the old topic is
    removed with delta -1 and the drawn topic is committed with delta
    +1.  Returns the table inside the pair and after it. *)
Definition resample_token (fuel : nat) (blockDim : Z) (m : t)
    (warp_z : Z) (dr : draw) : run (t * t) :=
  run_bind (insert2 fuel blockDim (allocs_remove dr) m warp_z (-1))
    (fun '(_, m1) =>
  run_bind (insert2 fuel blockDim (allocs_commit dr) m1 (new_z dr) 1)
    (fun '(_, m2) => Ret (m1, m2))).

(** The loop over the words of one document: the final table and the
    topics written back to [z]. *)
Fixpoint resample_document (fuel : nat) (blockDim : Z) (m : t)
    (z : list Z) (draws : list draw) : run (t * list Z) :=
  match z, draws with
  | warp_z :: z', dr :: draws' =>
    run_bind (resample_token fuel blockDim m warp_z dr) (fun '(_, m2) =>
    run_bind (resample_document fuel blockDim m2 z' draws')
      (fun '(m', z'') => Ret (m', new_z dr :: z'')))
  | _, _ => Ret (m, [])
  end.

End Topics.

(** ** The column sums of the refresh pass *)

(** Values of type [f32] are exact rationals here, and the indices,
    which the source holds in [i32], are natural numbers: the kernels
    are taken on matrices whose [K * V] entries can be indexed without
    overflow. *)
Module PolyaUrn.

Definition warpSize : nat := 32.


(** [thread_sum += __shfl_down(thread_sum, offset)] in every lane of a
    warp whose lanes hold [xs]: a lane whose source lane would lie past
    the end of the warp receives its own value. *)
Definition shfl_down_add (xs : list Q) (offset : nat) : list Q :=
  imap (fun lane x =>
          (x + (if (lane + offset <? warpSize)%nat
                then nth (lane + offset) xs 0 else x))%Q)
       xs.

(** The warp reduction of [block_reduce_sum], with [offset] running
    over 16, 8, 4, 2, 1. *)
Definition warp_reduce (xs : list Q) : list Q :=
  fold_left shfl_down_add [16; 8; 4; 2; 1]%nat xs.

(** [block_reduce_sum] on a block given warp by warp: lane 0 of every
    warp adds its reduced sum to [block_sum], which starts at 0 and is
    returned to all threads. *)
Definition block_reduce_sum (warps : list (list Q)) : Q :=
  fold_left (fun block_sum w => (block_sum + nth 0 (warp_reduce w) 0)%Q)
            warps 0%Q.

(** The loop "compute column sums" of one thread of block [blockIdx]. *)
Definition thread_sum (blockDim K : nat) (Phi : list Q)
    (blockIdx threadIdx : nat) : Q :=
  fold_left (fun acc offset =>
               let row := (threadIdx + offset * blockDim)%nat in
               let array_idx := (row + K * blockIdx)%nat in
               if (row <? K)%nat then (acc + nth array_idx Phi 0)%Q else acc)
            (seq 0 (K / blockDim + 1)) 0%Q.

(** The sum that block [blockIdx], made of [nwarps] warps, obtains from
    [block_reduce_sum]. *)
Definition block_sum (nwarps K : nat) (Phi : list Q) (blockIdx : nat) : Q :=
  block_reduce_sum
    (map (fun w =>
            map (fun lane =>
                   thread_sum (warpSize * nwarps) K Phi blockIdx
                              (warpSize * w + lane))
                (seq 0 warpSize))
         (seq 0 nwarps)).

(** The kernel in namespace [gpulda], the one [sample_phi] launches
    with [args->alpha]: [sigma_a[blockIdx.x] = alpha * thread_sum]. *)
Module gpulda.
Definition polya_urn_colsums (nwarps : nat) (Phi : list Q) (alpha : Q)
    (K : nat) (blockIdx : nat) : Q :=
  (alpha * block_sum nwarps K Phi blockIdx)%Q.
End gpulda.

(** The kernel in namespace [gplda], without [alpha]:
    [sigma_a[blockIdx.x] = thread_sum]. *)
Module gplda.
Definition polya_urn_colsums (nwarps : nat) (Phi : list Q) (K : nat)
    (blockIdx : nat) : Q :=
  block_sum nwarps K Phi blockIdx.
End gplda.


(** *** The loops over the entries of a row *)







End PolyaUrn.

(** ** The draw of [sample_topics] *)

Module MixtureSampler.
Import HashMap.

(** The two ways of drawing a topic: [draw_wary_search] over the exact
    term, or [draw_alias] from the alias table of the word. *)
Inductive branch : Type :=
  | exact_term
  | alias_table.

(** [if(u1 * (warp_sigma_a + sigma_b) > warp_sigma_a)]; the result of
    each floating point operation is rounded by [rnd]. *)
Definition draw_branch (rnd : Q -> Q) (u1 warp_sigma_a sigma_b : Q)
    : branch :=
  if Qlt_le_dec warp_sigma_a (rnd (u1 * rnd (warp_sigma_a + sigma_b)))%Q
  then exact_term else alias_table.

(** Modelled from the spec: [compute_product_cumsum] is called by
    [sample_topics] and is not among the sources.  It returns
    [sigma_b], the grand total of the cumulative sum, over every topic
    present with nonzero count in the table, of
    [count(topic) * Phi[word, topic]]. *)
Definition compute_product_cumsum (rnd : Q -> Q) (Phi_word : Z -> Q)
    (m : t) : Q :=
  fold_left (fun acc e =>
               if live e && negb (value e =? 0)
               then rnd (acc + rnd (inject_Z (value e) * Phi_word (key e)))%Q
               else acc)
            (data m) 0%Q.

End MixtureSampler.

(** ** The queue pair of the alias-table builder *)

Module Poisson.

(** What one lane of the warp brings to [warp_queue_pair_push]: whether
    it takes part in the call, and its arguments [value] and
    [conditional]. *)
Record lane : Type := mk_lane {
  active : bool;
  value : Z;
  conditional : Z
}.

(** The two queues and their end counters. *)
Record queues : Type := mk_queues {
  q1 : list Z;
  q2 : list Z;
  q1_end : Z;
  q2_end : Z
}.

Definition warp_lane_id_bits (lane_idx : Z) : Z := u32 (Z.shiftl 1 lane_idx).

(** [__popc((~(0xffffffff << (threadIdx.x % 32))) & lane_bits)]. *)
Definition warp_lane_offset (threadIdx lane_bits : Z) : Z :=
  popc (Z.land (u32 (Z.lnot (u32 (Z.shiftl 4294967295 (threadIdx mod 32)))))
               lane_bits).

Definition queue_wraparound (idx : Z) : Z := idx.

(** The write of one lane, given the two ballots and the two block
    starts. *)
Definition lane_write (warp_q1_bits warp_q2_bits warp_q1_start warp_q2_start : Z)
    (qs : list Z * list Z) (tl : Z * lane) : list Z * list Z :=
  let '(threadIdx, l) := tl in
  if active l then
    if negb (conditional l =? 0) then
      let write_idx :=
        i32 (warp_q1_start + warp_lane_offset threadIdx warp_q1_bits) in
      (<[Z.to_nat (queue_wraparound write_idx) := value l]> (fst qs), snd qs)
    else
      let write_idx :=
        i32 (warp_q2_start + warp_lane_offset threadIdx warp_q2_bits) in
      (fst qs, <[Z.to_nat (queue_wraparound write_idx) := value l]> (snd qs))
  else qs.

(** [warp_queue_pair_push] for the lanes of one warp.  The ballots see
    the active lanes only; [__ballot(~conditional)] votes with the
    bitwise complement of the [int] argument; lane 0 reserves the two
    blocks with [atomicAdd] and its results are broadcast. *)
Definition warp_queue_pair_push (lanes : list lane) (qs : queues) : queues :=
  let warp_q1_bits :=
    ballot (map (fun l => active l && negb (conditional l =? 0)) lanes) in
  let warp_q2_bits :=
    ballot (map (fun l => active l
                          && negb (i32 (Z.lnot (conditional l)) =? 0))
                lanes) in
  let warp_num_q1 := popc warp_q1_bits in
  let warp_num_q2 := popc warp_q2_bits in
  let lane0 := match lanes with l :: _ => active l | [] => false end in
  let warp_q1_start := q1_end qs in
  let warp_q2_start := q2_end qs in
  let written :=
    fold_left (lane_write warp_q1_bits warp_q2_bits
                          warp_q1_start warp_q2_start)
              (combine (seqZ 0 32) lanes) (q1 qs, q2 qs) in
  {| q1 := fst written;
     q2 := snd written;
     q1_end := if lane0 then i32 (q1_end qs + warp_num_q1) else q1_end qs;
     q2_end := if lane0 then i32 (q2_end qs + warp_num_q2) else q2_end qs |}.

(** The lanes that write to the first queue, in lane order. *)
Definition pushed_q1 (lanes : list lane) : list lane :=
  List.filter (fun l => active l && negb (conditional l =? 0)) lanes.

(** The number of lanes that write to the second queue. *)
Definition writers_q2 (lanes : list lane) : Z :=
  Z.of_nat (length (List.filter (fun l => active l && (conditional l =? 0))
                                lanes)).

(** A warp in which lanes 0 and 1 take part: lane 0 pushes 10 with a
    true predicate, lane 1 pushes 11 with a false one. *)
Definition two_lanes : list lane :=
  {| active := true; value := 10; conditional := 1 |}
  :: {| active := true; value := 11; conditional := 0 |}
  :: repeat {| active := false; value := 0; conditional := 0 |} 30.

Definition fresh_queues : queues :=
  {| q1 := [0; 0; 0; 0]; q2 := [0; 0; 0; 0]; q1_end := 0; q2_end := 0 |}.

End Poisson.

(** ** Facts about machine words *)

Lemma i32_small (x : Z) : - 2 ^ 31 <= x < 2 ^ 31 -> i32 x = x.
Proof. intros H. unfold i32. rewrite Z.mod_small; lia. Qed.

Lemma u32_small (x : Z) : 0 <= x < 2 ^ 32 -> u32 x = x.
Proof. intros H. unfold u32. now apply Z.mod_small. Qed.

Lemma u32_range (x : Z) : 0 <= u32 x < 2 ^ 32.
Proof. unfold u32. apply Z.mod_pos_bound. lia. Qed.

Lemma u32_i32 (x : Z) : u32 (i32 x) = u32 x.
Proof.
  unfold u32, i32.
  rewrite Zminus_mod, Zmod_mod, <- Zminus_mod.
  f_equal. lia.
Qed.

Lemma u32_add (x y : Z) : u32 (x + y) = u32 (u32 x + u32 y).
Proof. unfold u32. apply Zplus_mod. Qed.

(** Two words that agree modulo 2^32 after adding the same amounts. *)
Lemma u32_add_congr (x x' y y' : Z) :
  u32 x = u32 x' -> u32 y = u32 y' -> u32 (x + y) = u32 (x' + y').
Proof. intros Hx Hy. rewrite (u32_add x y), (u32_add x' y'). congruence. Qed.

(** ** Loops over the threads of a block *)

Section BlockLoops.
Context {A : Type}.





End BlockLoops.

Section BlockLoop.
Import PolyaUrn.

Variables blockDim n : nat.
Hypothesis Hblock : (0 < blockDim)%nat.





End BlockLoop.
(** ** Facts about ballots *)

Section Ballots.

Lemma ballot_bounds (votes : list bool) :
  0 <= ballot votes < 2 ^ Z.of_nat (length votes).
Proof.
  induction votes as [|v rest IH]; cbn [ballot length].
  - change (2 ^ Z.of_nat 0) with 1. lia.
  - rewrite Nat2Z.inj_succ, Z.pow_succ_r by lia.
    destruct v; cbn [Z.b2z]; lia.
Qed.

Lemma testbit_ballot (votes : list bool) (j : nat) :
  Z.testbit (ballot votes) (Z.of_nat j) = nth j votes false.
Proof.
  revert j. induction votes as [|v rest IH]; intros j; cbn [ballot].
  - rewrite Z.testbit_0_l. now destruct j.
  - destruct j as [|j].
    + change (Z.of_nat 0) with 0. now rewrite Z.testbit_0_r.
    + rewrite Nat2Z.inj_succ, Z.testbit_succ_r by lia. apply IH.
Qed.

Lemma ballot_zero (votes : list bool) :
  ballot votes = 0 <-> forall j, nth j votes false = false.
Proof.
  split.
  - intros H j. rewrite <- testbit_ballot, H. apply Z.testbit_0_l.
  - intros H. apply Z.bits_inj_0. intros n.
    destruct (Z.neg_nonneg_cases n) as [Hn|Hn].
    + now apply Z.testbit_neg_r.
    + rewrite <- (Z2Nat.id n Hn), testbit_ballot. apply H.
Qed.

Lemma ballot_mask (votes : list bool) :
  length votes = 16%nat ->
  Z.land (ballot votes) (HashMap.half_lane_mask 0) = ballot votes.
Proof.
  intros Hlen. change (HashMap.half_lane_mask 0) with (Z.ones 16).
  rewrite Z.land_ones by lia. apply Z.mod_small.
  pose proof (ballot_bounds votes) as Hb. rewrite Hlen in Hb. exact Hb.
Qed.

Lemma ffs_from_first (fuel : nat) (i x : Z) (n : nat) :
  0 <= i -> (n < fuel)%nat ->
  Z.testbit x (i + Z.of_nat n) = true ->
  (forall j, (j < n)%nat -> Z.testbit x (i + Z.of_nat j) = false) ->
  ffs_from fuel i x = i + Z.of_nat n + 1.
Proof.
  revert i n. induction fuel as [|fuel IH]; intros i n Hi Hn Hset Hlow.
  - lia.
  - cbn [ffs_from]. destruct n as [|n].
    + replace (i + Z.of_nat 0) with i in Hset by lia. rewrite Hset. lia.
    + pose proof (Hlow 0%nat ltac:(lia)) as H0.
      replace (i + Z.of_nat 0) with i in H0 by lia. rewrite H0.
      rewrite (IH (i + 1) n); try lia.
      * replace (i + 1 + Z.of_nat n) with (i + Z.of_nat (S n)) by lia.
        exact Hset.
      * intros j Hj.
        replace (i + 1 + Z.of_nat j) with (i + Z.of_nat (S j)) by lia.
        apply Hlow. lia.
Qed.

(** The lane selected by [__ffs(ballot) - 1] is the lowest lane that
    voted. *)
Lemma ffs_ballot (votes : list bool) (n : nat) :
  (n < 32)%nat ->
  nth n votes false = true ->
  (forall j, (j < n)%nat -> nth j votes false = false) ->
  ffs (ballot votes) - 1 = Z.of_nat n.
Proof.
  intros Hn Hset Hlow. unfold ffs.
  rewrite (ffs_from_first 32 0 (ballot votes) n); try lia.
  - now rewrite Z.add_0_l, testbit_ballot.
  - intros j Hj. rewrite Z.add_0_l, testbit_ballot. now apply Hlow.
Qed.

(** A non-zero ballot has a lowest voting lane. *)
Lemma ballot_first (votes : list bool) :
  ballot votes <> 0 ->
  exists n, (n < length votes)%nat /\ nth n votes false = true /\
            forall j, (j < n)%nat -> nth j votes false = false.
Proof.
  induction votes as [|v rest IH]; cbn [ballot]; intros Hnz.
  - lia.
  - destruct v.
    + exists 0%nat. cbn. repeat split; [lia | intros j Hj; lia].
    + cbn [Z.b2z] in Hnz. destruct IH as (n & Hn & Hset & Hlow); [lia|].
      exists (S n). cbn [length nth]. repeat split; [lia | exact Hset |].
      intros [|j] Hj; [reflexivity | apply Hlow; lia].
Qed.

Lemma popc_from_ballot (votes : list bool) (n i : nat) :
  popc_from n (Z.of_nat i) (ballot votes)
  = count_votes (take n (drop i votes)).
Proof.
  revert i. induction n as [|n IH]; intros i; cbn [popc_from].
  - now rewrite take_0.
  - rewrite testbit_ballot.
    replace (Z.of_nat i + 1) with (Z.of_nat (S i)) by lia. rewrite IH.
    rewrite nth_lookup.
    destruct (votes !! i) as [v|] eqn:Hv; cbn [default].
    + rewrite (drop_S _ _ _ Hv). reflexivity.
    + apply lookup_ge_None in Hv.
      rewrite !drop_ge by lia. now rewrite !take_nil.
Qed.

(** The population count of a ballot is the number of lanes that
    voted. *)
Lemma popc_ballot (votes : list bool) :
  (length votes <= 32)%nat -> popc (ballot votes) = count_votes votes.
Proof.
  intros Hlen. unfold popc. change 0 with (Z.of_nat 0).
  rewrite popc_from_ballot, drop_0. now rewrite take_ge.
Qed.

End Ballots.

(** ** Masks of lanes *)

Section LaneMasks.
(** [~(0xffffffff << lane)] as an unsigned word: the lanes below
    [lane]. *)
Lemma mask_below (lane : Z) :
  0 <= lane < 32 ->
  u32 (Z.lnot (u32 (Z.shiftl 4294967295 lane))) = Z.ones lane.
Proof using Type.
  intros Hl. apply Z.bits_inj'. intros n Hn. unfold u32.
  rewrite Z.testbit_mod_pow2, Z.lnot_spec, Z.testbit_mod_pow2 by lia.
  rewrite Z.shiftl_spec by lia. change 4294967295 with (Z.ones 32).
  rewrite Z.testbit_ones, (Z.testbit_ones_nonneg lane) by lia.
  destruct (Z.ltb_spec n 32), (Z.leb_spec 0 (n - lane)),
    (Z.ltb_spec (n - lane) 32), (Z.ltb_spec n lane); cbn; lia.
Qed.

Lemma ballot_below (votes : list bool) (lane : nat) :
  Z.land (Z.ones (Z.of_nat lane)) (ballot votes) = ballot (take lane votes).
Proof using Type.
  apply Z.bits_inj'. intros n Hn.
  rewrite Z.land_spec, Z.testbit_ones_nonneg by lia.
  rewrite <- (Z2Nat.id n Hn), !testbit_ballot.
  rewrite !nth_lookup.
  destruct (Z.ltb_spec (Z.of_nat (Z.to_nat n)) (Z.of_nat lane)) as [Hlt|Hge];
    cbn [andb].
  - now rewrite lookup_take_lt by lia.
  - now rewrite lookup_take_ge by lia.
Qed.

Lemma count_votes_filter {A : Type} (f : A -> bool) (l : list A) :
  count_votes (map f l) = Z.of_nat (length (List.filter f l)).
Proof using Type.
  unfold count_votes.
  induction l as [|x l IH]; cbn [map fold_right List.filter]; [reflexivity|].
  rewrite IH. destruct (f x); cbn [Z.b2z length]; lia.
Qed.

(** The lanes below the calling lane that are set in a ballot. *)
Lemma warp_lane_offset_count (votes : list bool) (threadIdx : Z) :
  (length votes <= 32)%nat ->
  Poisson.warp_lane_offset threadIdx (ballot votes)
  = count_votes (take (Z.to_nat (threadIdx mod 32)) votes).
Proof using Type.
  intros Hlen. unfold Poisson.warp_lane_offset.
  pose proof (Z.mod_pos_bound threadIdx 32 ltac:(lia)) as Hlane.
  rewrite mask_below by exact Hlane.
  rewrite <- (Z2Nat.id (threadIdx mod 32)) at 1 by lia.
  rewrite ballot_below. apply popc_ballot.
  rewrite length_take. lia.
Qed.

Lemma count_votes_app (l1 l2 : list bool) :
  count_votes (l1 ++ l2) = count_votes l1 + count_votes l2.
Proof using Type.
  unfold count_votes. induction l1 as [|v l1 IH]; cbn [app fold_right];
    [reflexivity|].
  rewrite IH. lia.
Qed.

Lemma count_votes_none (n : nat) : count_votes (replicate n false) = 0.
Proof using Type.
  unfold count_votes. induction n as [|n IH]; cbn [replicate fold_right];
    [reflexivity|].
  now rewrite IH.
Qed.

(** The word of [warp_lane_id_bits] is the ballot in which that lane
    alone votes. *)
Lemma lane_bit_ballot (lane : nat) :
  (lane < 32)%nat ->
  Poisson.warp_lane_id_bits (Z.of_nat lane)
  = ballot (replicate lane false ++ [true]).
Proof using Type.
  intros Hlane. unfold Poisson.warp_lane_id_bits.
  rewrite Z.shiftl_1_l.
  assert (Hpow : forall n : nat, ballot (replicate n false ++ [true])
                                 = 2 ^ Z.of_nat n).
  { induction n as [|n IH]; [reflexivity|].
    cbn [replicate app ballot Z.b2z]. rewrite IH.
    rewrite Nat2Z.inj_succ, Z.pow_succ_r by lia. lia. }
  rewrite Hpow. apply u32_small. split; [apply Z.pow_nonneg; lia|].
  apply Z.pow_lt_mono_r; lia.
Qed.

End LaneMasks.

(** ** Facts about packed entries *)

Module EntryFacts.
Import HashMap.

Lemma value_low (x : Z) : value x = x mod 2 ^ 32.
Proof.
  unfold value, bfe_b64. rewrite Z.shiftr_0_r, Z.land_ones by lia.
  unfold u32. apply Zmod_mod.
Qed.

Lemma key_high (x : Z) : key x = (x / 2 ^ 32) mod 2 ^ 32.
Proof.
  unfold key, bfe_b64. rewrite Z.shiftr_div_pow2, Z.land_ones by lia.
  unfold u32. apply Zmod_mod.
Qed.

Lemma bits_above_32 (v n : Z) :
  0 <= v < 2 ^ 32 -> 32 <= n -> Z.testbit v n = false.
Proof.
  intros Hv Hn. destruct (Z.eq_dec v 0) as [->|Hnz]; [apply Z.bits_0|].
  apply Z.bits_above_log2; [lia|].
  apply Z.lt_le_trans with 32; [|exact Hn].
  apply Z.log2_lt_pow2; lia.
Qed.

Lemma low_high_disjoint (v k : Z) :
  0 <= v < 2 ^ 32 -> Z.land v (Z.shiftl k 32) = 0.
Proof.
  intros Hv. apply Z.bits_inj'. intros n Hn.
  rewrite Z.land_spec, Z.bits_0.
  destruct (Z.lt_ge_cases n 32) as [Hlt|Hge].
  - rewrite Z.shiftl_spec_low by lia. apply andb_false_r.
  - now rewrite (bits_above_32 v n).
Qed.

(** [entry] puts the key in the high half and the count in the low
    half of the word. *)
Lemma entry_sum (k v : Z) :
  0 <= k < 2 ^ 32 -> 0 <= v < 2 ^ 32 -> entry k v = k * 2 ^ 32 + v.
Proof.
  intros Hk Hv. unfold entry, bfi_b64.
  rewrite Z.land_ones, (Z.mod_small k) by lia.
  assert (Hlow : Z.ldiff v (Z.shiftl (Z.ones 32) 32) = v).
  { apply Z.bits_inj'. intros n Hn. rewrite Z.ldiff_spec.
    destruct (Z.lt_ge_cases n 32) as [Hlt|Hge].
    - rewrite Z.shiftl_spec_low by lia. apply andb_true_r.
    - now rewrite (bits_above_32 v n). }
  rewrite Hlow.
  rewrite <- Z.lxor_lor, <- Z.add_nocarry_lxor
    by (now apply low_high_disjoint).
  rewrite Z.shiftl_mul_pow2 by lia. unfold u64. rewrite Z.mod_small; lia.
Qed.

Lemma key_entry (k v : Z) :
  0 <= k < 2 ^ 32 -> 0 <= v < 2 ^ 32 -> key (entry k v) = k.
Proof.
  intros Hk Hv. rewrite key_high, entry_sum by assumption.
  rewrite Z.add_comm, Z.div_add, (Z.div_small v) by lia.
  apply Z.mod_small. lia.
Qed.

Lemma value_entry (k v : Z) :
  0 <= k < 2 ^ 32 -> 0 <= v < 2 ^ 32 -> value (entry k v) = v.
Proof.
  intros Hk Hv. rewrite value_low, entry_sum by assumption.
  rewrite Z.add_comm, Z.mod_add by lia. apply Z.mod_small. lia.
Qed.

(** [with_value] called as on a key match in [try_insert2], the entry
    first and the new count second: the result is the old count under
    key 0, whatever the new count. *)
Lemma with_value_exchanged (thread_entry new_count : Z) :
  0 <= new_count < 2 ^ 32 ->
  with_value thread_entry new_count = value thread_entry.
Proof.
  intros Hx. rewrite value_low. unfold with_value, bfi_b64.
  rewrite Z.shiftl_0_r, Z.shiftl_0_r, Z.ldiff_ones_r by lia.
  rewrite Z.shiftr_div_pow2, Z.div_small by lia.
  rewrite Z.shiftl_0_l, Z.lor_0_l, Z.land_ones by lia.
  unfold u64. apply Z.mod_small.
  pose proof (Z.mod_pos_bound thread_entry (2 ^ 32) ltac:(lia)). lia.
Qed.

Lemma match_rewrites_key (thread_entry diff : Z) :
  let thread_new_entry :=
    with_value thread_entry (u32 (value thread_entry + diff)) in
  key thread_new_entry = 0 /\ value thread_new_entry = value thread_entry.
Proof.
  cbv zeta. rewrite with_value_exchanged by apply u32_range.
  pose proof (u32_range (bfe_b64 thread_entry 0 32)) as Hv.
  fold (value thread_entry) in Hv. split.
  - rewrite key_high, Z.div_small by lia. reflexivity.
  - rewrite value_low. apply Z.mod_small. lia.
Qed.

(** An old word that has passed through the [i32] variable
    [half_warp_entry] of [resize] has lost its key. *)
Lemma migrated_key (lane_entry : Z) :
  key (u64 (i32 lane_entry)) = 0 \/ key (u64 (i32 lane_entry)) = 2 ^ 32 - 1.
Proof.
  rewrite key_high. unfold u64.
  assert (Hi : - 2 ^ 31 <= i32 lane_entry < 2 ^ 31).
  { unfold i32.
    pose proof (Z.mod_pos_bound (lane_entry + 2 ^ 31) (2 ^ 32) ltac:(lia)).
    lia. }
  destruct (Z.neg_nonneg_cases (i32 lane_entry)) as [Hneg|Hpos].
  - right.
    replace (i32 lane_entry mod 2 ^ 64) with (i32 lane_entry + 2 ^ 64).
    2:{ symmetry. rewrite <- (Z.mod_add _ 1) by lia.
        apply Z.mod_small. lia. }
    replace (i32 lane_entry + 2 ^ 64)
      with ((i32 lane_entry + 2 ^ 32) + (2 ^ 32 - 1) * 2 ^ 32) by lia.
    rewrite Z.div_add, Z.div_small by lia. reflexivity.
  - left. rewrite (Z.mod_small (i32 lane_entry)) by lia.
    rewrite Z.div_small by lia. reflexivity.
Qed.

Lemma migrated_keys (blockDim old_capacity : Z) (old_data : list Z)
    (k df : Z) :
  In (k, df) (migrated blockDim old_capacity old_data) ->
  k = 0 \/ k = 2 ^ 32 - 1.
Proof.
  unfold migrated. intros Hin. apply in_map_iff in Hin as (i & Heq & _).
  injection Heq as <- _. apply migrated_key.
Qed.

End EntryFacts.
(** ** The fields of a packed entry *)

Module FieldFacts.
Import HashMap EntryFacts.

Lemma bfi_b64_testbit (x y bit_start num_bits n : Z) :
  0 <= bit_start -> 0 <= num_bits -> 0 <= n ->
  Z.testbit (bfi_b64 x y bit_start num_bits) n
  = (n <? 64)
    && (if (bit_start <=? n) && (n <? bit_start + num_bits)
        then Z.testbit y (n - bit_start) else Z.testbit x n).
Proof.
  intros Hs Hw Hn. unfold bfi_b64, u64.
  rewrite Z.testbit_mod_pow2 by lia. f_equal.
  rewrite Z.lor_spec, Z.ldiff_spec.
  destruct (Z.leb_spec bit_start n) as [Hge|Hlt]; cbn [andb].
  - rewrite !Z.shiftl_spec, Z.land_spec by lia.
    rewrite Z.testbit_ones_nonneg by lia.
    replace (n - bit_start <? num_bits) with (n <? bit_start + num_bits)
      by (destruct (Z.ltb_spec n (bit_start + num_bits));
          destruct (Z.ltb_spec (n - bit_start) num_bits); lia).
    destruct (n <? bit_start + num_bits); cbn [negb].
    + now rewrite andb_false_r, andb_true_r.
    + now rewrite andb_true_r, andb_false_r, orb_false_r.
  - rewrite !Z.shiftl_spec_low by lia. cbn [negb].
    now rewrite andb_true_r, orb_false_r.
Qed.

Lemma key_testbit (e n : Z) :
  0 <= n -> Z.testbit (key e) n = (n <? 32) && Z.testbit e (n + 32).
Proof.
  intros Hn. rewrite key_high. rewrite Z.testbit_mod_pow2 by lia.
  f_equal. rewrite <- Z.shiftr_div_pow2 by lia. now rewrite Z.shiftr_spec.
Qed.

Lemma value_testbit (e n : Z) :
  Z.testbit (value e) n = (n <? 32) && Z.testbit e n.
Proof. rewrite value_low. apply Z.testbit_mod_pow2. lia. Qed.

(** [with_key] replaces the key field and keeps the count. *)
Lemma with_key_entry (k e : Z) : with_key k e = entry (u32 k) (value e).
Proof.
  apply Z.bits_inj'. intros n Hn. unfold with_key, entry.
  rewrite !bfi_b64_testbit by lia.
  destruct (Z.ltb_spec n 64) as [H64|H64]; cbn [andb]; [|reflexivity].
  destruct (Z.leb_spec 32 n) as [H32|H32]; cbn [andb].
  - replace (n <? 32 + 32) with true by lia.
    unfold u32. rewrite Z.testbit_mod_pow2 by lia.
    replace (n - 32 <? 32) with true by lia. reflexivity.
  - rewrite value_testbit. replace (n <? 32) with true by lia. reflexivity.
Qed.

(** [with_value] replaces the count and keeps the key field. *)
Lemma with_value_entry (v e : Z) : with_value v e = entry (key e) (u32 v).
Proof.
  apply Z.bits_inj'. intros n Hn. unfold with_value, entry.
  rewrite !bfi_b64_testbit by lia.
  destruct (Z.ltb_spec n 64) as [H64|H64]; cbn [andb]; [|reflexivity].
  destruct (Z.leb_spec 32 n) as [H32|H32]; cbn [andb].
  - replace (n <? 32 + 32) with true by lia.
    replace (0 <=? n) with true by lia. replace (n <? 0 + 32) with false by lia.
    cbn [andb]. rewrite key_testbit by lia.
    replace (n - 32 <? 32) with true by lia.
    cbn [andb]. f_equal. lia.
  - replace (0 <=? n) with true by lia. replace (n <? 0 + 32) with true by lia.
    cbn [andb]. unfold u32. rewrite Z.testbit_mod_pow2 by lia.
    replace (n <? 32) with true by lia. cbn [andb]. f_equal. lia.
Qed.

(** A 64-bit word is the entry made of its two fields. *)
Lemma entry_key_value (e : Z) :
  0 <= e < 2 ^ 64 -> entry (key e) (value e) = e.
Proof.
  intros He. rewrite entry_sum.
  - rewrite key_high, value_low.
    rewrite (Z.mod_small (e / 2 ^ 32)).
    + pose proof (Z.div_mod e (2 ^ 32) ltac:(lia)). lia.
    + split; [apply Z.div_pos; lia|].
      apply Z.div_lt_upper_bound; lia.
  - rewrite key_high. apply Z.mod_pos_bound. lia.
  - rewrite value_low. apply Z.mod_pos_bound. lia.
Qed.

Lemma entry_range (k v : Z) :
  0 <= k < 2 ^ 32 -> 0 <= v < 2 ^ 32 -> 0 <= entry k v < 2 ^ 64.
Proof. intros Hk Hv. rewrite entry_sum by assumption. lia. Qed.

End FieldFacts.

(** X1: packing and unpacking are inverse to each other: [key] and
    [value] read back the two arguments of [entry], a 64-bit word is the
    [entry] of its own key and value, and the only packed pair that
    equals [empty()] is key 0xffffffff with count 0. *)
Theorem X1_entry_round_trip (k v e : Z) :
  0 <= k < 2 ^ 32 -> 0 <= v < 2 ^ 32 -> 0 <= e < 2 ^ 64 ->
  HashMap.key (HashMap.entry k v) = k /\
  HashMap.value (HashMap.entry k v) = v /\
  HashMap.entry (HashMap.key e) (HashMap.value e) = e /\
  (HashMap.entry k v = HashMap.empty <-> k = 2 ^ 32 - 1 /\ v = 0).
Proof.
  intros Hk Hv He. repeat split.
  - now apply EntryFacts.key_entry.
  - now apply EntryFacts.value_entry.
  - now apply FieldFacts.entry_key_value.
  - rewrite EntryFacts.entry_sum in H by assumption.
    unfold HashMap.empty in H. lia.
  - rewrite EntryFacts.entry_sum in H by assumption.
    unfold HashMap.empty in H. lia.
  - intros [-> ->]. reflexivity.
Qed.

Lemma X1_entry_round_trip_witness :
  HashMap.key (HashMap.entry 7 3) = 7 /\
  HashMap.value (HashMap.entry 7 3) = 3 /\
  HashMap.entry (HashMap.key 12345678901) (HashMap.value 12345678901)
  = 12345678901 /\
  (HashMap.entry 7 3 = HashMap.empty <-> 7 = 2 ^ 32 - 1 /\ 3 = 0).
Proof.
  apply (X1_entry_round_trip 7 3 12345678901); lia.
Defined.

(** X2: [with_key] and [with_value], called with the new field first and
    the entry second, replace one field and keep the other. *)
Theorem X2_field_update (x e : Z) :
  0 <= x < 2 ^ 32 ->
  HashMap.key (HashMap.with_key x e) = x /\
  HashMap.value (HashMap.with_key x e) = HashMap.value e /\
  HashMap.value (HashMap.with_value x e) = x /\
  HashMap.key (HashMap.with_value x e) = HashMap.key e.
Proof.
  intros Hx.
  assert (Hv : 0 <= HashMap.value e < 2 ^ 32).
  { rewrite EntryFacts.value_low. apply Z.mod_pos_bound. lia. }
  assert (Hk : 0 <= HashMap.key e < 2 ^ 32).
  { rewrite EntryFacts.key_high. apply Z.mod_pos_bound. lia. }
  rewrite FieldFacts.with_key_entry, FieldFacts.with_value_entry.
  rewrite (u32_small x) by exact Hx.
  repeat split.
  - now apply EntryFacts.key_entry.
  - now apply EntryFacts.value_entry.
  - now apply EntryFacts.value_entry.
  - now apply EntryFacts.key_entry.
Qed.

Lemma X2_field_update_witness :
  HashMap.key (HashMap.with_key 9 (HashMap.entry 7 3)) = 9 /\
  HashMap.value (HashMap.with_key 9 (HashMap.entry 7 3))
  = HashMap.value (HashMap.entry 7 3) /\
  HashMap.value (HashMap.with_value 9 (HashMap.entry 7 3)) = 9 /\
  HashMap.key (HashMap.with_value 9 (HashMap.entry 7 3))
  = HashMap.key (HashMap.entry 7 3).
Proof. apply (X2_field_update 9 (HashMap.entry 7 3)). lia. Defined.
(** ** Facts about the hash map *)

Module HashMapFacts.
Import HashMap.

Lemma line_quot (cap : Z) :
  16 <= cap < 2 ^ 29 -> (16 | cap) ->
  exists q, cap = 16 * q /\ 1 <= q < 2 ^ 25 /\
            u32 (cap `quot` GPULDA_HASH_LINE_SIZE) = q.
Proof.
  intros Hcap [q Hq]. exists q. unfold GPULDA_HASH_LINE_SIZE.
  assert (1 <= q < 2 ^ 25) by lia.
  repeat split; try lia.
  rewrite Z.quot_div_nonneg by lia.
  replace (cap / 16) with q by (subst cap; now rewrite Z.div_mul by lia).
  apply u32_small. lia.
Qed.

Lemma hash_range (x cap : Z) :
  16 <= cap < 2 ^ 29 -> (16 | cap) ->
  let h := i32 (u32 ((x mod 334214459
                      mod u32 (cap `quot` GPULDA_HASH_LINE_SIZE))
                     * GPULDA_HASH_LINE_SIZE)) in
  0 <= h < cap /\ (16 | h).
Proof.
  intros Hcap Hdiv h. subst h.
  destruct (line_quot cap Hcap Hdiv) as (q & Hq & Hqr & ->).
  unfold GPULDA_HASH_LINE_SIZE.
  pose proof (Z.mod_pos_bound (x mod 334214459) q ltac:(lia)) as Hr.
  set (r := x mod 334214459 mod q) in *.
  rewrite u32_small by lia. rewrite i32_small by lia.
  split; [lia | exists r; lia].
Qed.


Lemma hash_slot_range (m : t) (k : Z) :
  wf m -> 0 <= hash_slot m k < capacity m /\ (16 | hash_slot m k).
Proof. intros (_ & Hcap & Hdiv). now apply hash_range. Qed.

Lemma hash_stride_range (m : t) (k : Z) :
  wf m -> 0 <= hash_stride m k < capacity m /\ (16 | hash_stride m k).
Proof. intros (_ & Hcap & Hdiv). now apply hash_range. Qed.

Lemma mod_line (x cap : Z) :
  0 < cap -> (16 | x) -> (16 | cap) -> (16 | x mod cap).
Proof.
  intros Hpos Hx Hcap. rewrite Z.mod_eq by lia.
  apply Z.divide_sub_r; [exact Hx | now apply Z.divide_mul_l].
Qed.

Lemma probe_range (m : t) (k i : Z) :
  wf m -> 0 <= i < GPULDA_HASH_MAX_NUM_LINES ->
  0 <= probe m k i /\ probe m k i + 16 <= capacity m /\ (16 | probe m k i).
Proof.
  intros Hwf Hi. unfold GPULDA_HASH_MAX_NUM_LINES in Hi.
  destruct (hash_slot_range m k Hwf) as [Hh Hhd].
  destruct (hash_stride_range m k Hwf) as [Hs Hsd].
  destruct Hwf as (_ & Hcap & Hdiv). unfold probe, probe_slot.
  assert (0 <= i * hash_stride m k <= 3 * hash_stride m k) by nia.
  rewrite (i32_small (i * _)) by lia. rewrite i32_small by lia.
  rewrite Z.rem_mod_nonneg by lia.
  set (x := hash_slot m k + i * hash_stride m k).
  assert (Hx : (16 | x)).
  { apply Z.divide_add_r; [exact Hhd | now apply Z.divide_mul_r]. }
  pose proof (Z.mod_pos_bound x (capacity m) ltac:(lia)) as Hb.
  pose proof (mod_line x (capacity m) ltac:(lia) Hx Hdiv) as [y Hy].
  destruct Hdiv as [q Hq].
  repeat split; try lia. exists y. exact Hy.
Qed.

(** Stepping the slot as [try_insert2] does keeps it on a line. *)
Lemma advance_range (m : t) (slot stride : Z) :
  wf m ->
  0 <= slot < capacity m -> (16 | slot) ->
  0 <= stride < capacity m -> (16 | stride) ->
  let slot' := i32 (slot + stride) `rem` capacity m in
  0 <= slot' < capacity m /\ (16 | slot').
Proof.
  intros (_ & Hcap & Hdiv) Hs Hsd Ht Htd slot'. subst slot'.
  rewrite i32_small by lia. rewrite Z.rem_mod_nonneg by lia.
  split; [apply Z.mod_pos_bound; lia|].
  apply mod_line; [lia | now apply Z.divide_add_r | exact Hdiv].
Qed.

Lemma line_fits (cap slot : Z) :
  (16 | cap) -> (16 | slot) -> 0 <= slot < cap -> slot + 16 <= cap.
Proof. intros [q Hq] [y Hy] H. lia. Qed.

Lemma half_lanes_lookup (l : nat) :
  (l < 16)%nat -> half_lanes !! l = Some (Z.of_nat l).
Proof.
  intros H. do 16 (destruct l as [|l]; [reflexivity|]). lia.
Qed.

Lemma load_lookup (dat : list Z) (idx : Z) (e : Z) :
  load dat idx = Some e <-> 0 <= idx /\ dat !! Z.to_nat idx = Some e.
Proof.
  unfold load. destruct (Z.ltb_spec idx 0); split.
  - discriminate.
  - intros [? _]. lia.
  - intros. split; [lia | assumption].
  - now intros [_ ?].
Qed.

Lemma read_line_length (dat : list Z) (slot : Z) (line : list Z) :
  read_line dat slot = Some line -> length line = 16%nat.
Proof.
  unfold read_line. intros H. apply mapM_Some_1, Forall2_length in H.
  now rewrite <- H.
Qed.

Lemma read_line_lookup (dat : list Z) (slot : Z) (line : list Z) (l : nat) :
  read_line dat slot = Some line -> (l < 16)%nat ->
  0 <= slot /\ exists e, line !! l = Some e /\
                         dat !! (Z.to_nat slot + l)%nat = Some e.
Proof.
  unfold read_line. intros H Hl. apply mapM_Some_1 in H.
  pose proof (Forall2_lookup_l _ _ _ 0%nat 0 H (half_lanes_lookup 0 ltac:(lia)))
    as (e0 & _ & H0).
  apply load_lookup in H0 as [Hslot _].
  split; [lia|].
  destruct (Forall2_lookup_l _ _ _ l (Z.of_nat l) H (half_lanes_lookup l Hl))
    as (e & He & Hload).
  exists e. split; [exact He|].
  apply load_lookup in Hload as [_ Hload].
  now replace (Z.to_nat slot + l)%nat with (Z.to_nat (slot + Z.of_nat l)) by lia.
Qed.

Lemma read_line_Some (dat : list Z) (slot : Z) :
  0 <= slot -> slot + 16 <= Z.of_nat (length dat) ->
  is_Some (read_line dat slot).
Proof.
  intros Hs Hlen. unfold read_line.
  assert (Hall : Forall (fun l => is_Some (load dat (slot + l))) half_lanes).
  { apply Forall_forall. intros l Hl.
    assert (0 <= l < 16).
    { unfold half_lanes in Hl. repeat (apply elem_of_cons in Hl as [->|Hl]; [lia|]).
      now apply elem_of_nil in Hl. }
    unfold load. destruct (Z.ltb_spec (slot + l) 0); [lia|].
    apply lookup_lt_is_Some. lia. }
  clear Hs Hlen. induction Hall as [|l ls [e He] _ [line IH]].
  - now exists [].
  - exists (e :: line). cbn. rewrite He. cbn. rewrite IH. reflexivity.
Qed.

(** *** The Robin-Hood displacement invariant *)


(** *** The loop of [get2], one line at a time *)

Lemma find_first (f : Z -> bool) (l : list Z) :
  match find f l with
  | Some e => exists n, l !! n = Some e /\ f e = true /\
                        nth n (map f l) false = true /\
                        forall j, (j < n)%nat -> nth j (map f l) false = false
  | None => forall j, nth j (map f l) false = false
  end.
Proof.
  induction l as [|x l IH]; cbn [find map].
  - now intros [|j].
  - destruct (f x) eqn:Hx.
    + exists 0%nat. cbn. repeat split; try assumption. intros j Hj. lia.
    + destruct (find f l) as [e|].
      * destruct IH as (n & Hn & He & Hset & Hlow). exists (S n).
        cbn. repeat split; try assumption.
        intros [|j] Hj; [reflexivity | apply Hlow; lia].
      * intros [|j]; [reflexivity | apply IH].
Qed.

(** The masked ballot of a predicate over a line, the lane chosen by
    [__ffs] and the shuffle from that lane, in terms of the first entry
    of the line that satisfies the predicate. *)
Lemma ballot_find (f : Z -> bool) (g : Z -> Z) (line : list Z) :
  length line = 16%nat ->
  let votes := Z.land (ballot (map f line)) (half_lane_mask 0) in
  match find f line with
  | Some e => votes <> 0 /\ shfl (map g line) (ffs votes - 1) = g e
  | None => votes = 0
  end.
Proof.
  intros Hlen votes. subst votes.
  rewrite ballot_mask by now rewrite length_map.
  pose proof (find_first f line) as Hfind.
  destruct (find f line) as [e|].
  - destruct Hfind as (n & Hn & He & Hset & Hlow).
    pose proof (lookup_lt_Some _ _ _ Hn) as Hlt.
    split.
    + intros H0. rewrite ballot_zero in H0. rewrite H0 in Hset. discriminate.
    + rewrite (ffs_ballot _ n) by (assumption || lia).
      unfold shfl, half_warp. rewrite Z.mod_small by lia.
      rewrite Nat2Z.id. apply nth_lookup_Some.
      now rewrite list_lookup_fmap, Hn.
  - now apply ballot_zero.
Qed.

Lemma get2_line_find (m : t) (k slot j : Z) (line : list Z) :
  length line = 16%nat ->
  get2_line m k slot j line =
  match find (fun e => key e =? k) line with
  | Some e => Some (value e)
  | None =>
    if existsb (fun e => (e =? empty)
                         || (key_distance m (key e) (u32 slot) <? j)) line
    then Some 0 else None
  end.
Proof.
  intros Hlen. unfold get2_line.
  pose proof (ballot_find (fun e => key e =? k) value line Hlen) as Hkf.
  cbv zeta in Hkf.
  destruct (find (fun e => key e =? k) line) as [e|].
  - destruct Hkf as [Hnz Hval]. apply Z.eqb_neq in Hnz.
    now rewrite Hnz, Hval.
  - rewrite Hkf. change (negb (0 =? 0)) with false. cbv iota.
    set (g := fun e => (e =? empty)
                       || (key_distance m (key e) (u32 slot) <? j)).
    pose proof (ballot_find g value line Hlen) as Hnk. cbv zeta in Hnk.
    destruct (find g line) as [e'|] eqn:Hfind.
    + destruct Hnk as [Hnz _]. apply Z.eqb_neq in Hnz. rewrite Hnz.
      apply find_some in Hfind as [Hin He].
      replace (existsb g line) with true; [reflexivity|].
      symmetry. apply existsb_exists. eauto.
    + rewrite Hnk. change (negb (0 =? 0)) with false. cbv iota.
      destruct (existsb g line) eqn:Hex; [|reflexivity].
      apply existsb_exists in Hex as (e & Hin & He).
      now rewrite (find_none _ _ Hfind e Hin) in He.
Qed.

Lemma get2_loop_S (m : t) (k h s j : Z) (n : nat) :
  get2_loop m k h s j (S n) =
  match read_line (data m) (probe_slot m h s j) with
  | None => None
  | Some line =>
    match get2_line m k (probe_slot m h s j) j line with
    | Some v => Some v
    | None => get2_loop m k h s (j + 1) n
    end
  end.
Proof. reflexivity. Qed.

Lemma get2_loop_step (m : t) (k j : Z) (n : nat) (line : list Z) :
  read_line (data m) (probe m k j) = Some line ->
  get2_loop m k (hash_slot m k) (hash_stride m k) j (S n) =
  match find (fun e => key e =? k) line with
  | Some e => Some (value e)
  | None =>
    if existsb (fun e => (e =? empty)
                         || (key_distance m (key e) (u32 (probe m k j)) <? j))
               line
    then Some 0
    else get2_loop m k (hash_slot m k) (hash_stride m k) (j + 1) n
  end.
Proof.
  intros Hline. rewrite get2_loop_S. unfold probe in *. rewrite Hline.
  rewrite (get2_line_find _ _ _ _ _ (read_line_length _ _ _ Hline)).
  destruct (find _ line); [reflexivity|].
  now destruct (existsb _ line).
Qed.

End HashMapFacts.


(** ** The probe sequence *)

Module ProbeFacts.
Import HashMap HashMapFacts.

(** On a table of [allocate]'s shape the probe arithmetic does not
    wrap. *)
Lemma probe_mod (m : t) (k i : Z) :
  wf m -> 0 <= i < GPULDA_HASH_MAX_NUM_LINES ->
  probe m k i = (hash_slot m k + i * hash_stride m k) mod capacity m.
Proof.
  intros Hwf Hi. unfold GPULDA_HASH_MAX_NUM_LINES in Hi.
  destruct (hash_slot_range m k Hwf) as [Hh _].
  destruct (hash_stride_range m k Hwf) as [Hs _].
  destruct Hwf as (_ & Hcap & _). unfold probe, probe_slot.
  assert (0 <= i * hash_stride m k <= 3 * hash_stride m k) by nia.
  rewrite (i32_small (i * _)) by lia. rewrite i32_small by lia.
  apply Z.rem_mod_nonneg; lia.
Qed.

Lemma probe_zero (m : t) (k : Z) : wf m -> probe m k 0 = hash_slot m k.
Proof.
  intros Hwf. rewrite probe_mod by (assumption || (unfold GPULDA_HASH_MAX_NUM_LINES; lia)).
  destruct (hash_slot_range m k Hwf) as [Hh _].
  rewrite Z.mul_0_l, Z.add_0_r. now apply Z.mod_small.
Qed.

(** The test of the loop of [key_distance] is a test on the probe
    sequence. *)
Lemma key_distance_test (m : t) (k slot i : Z) :
  wf m -> 0 <= i < GPULDA_HASH_MAX_NUM_LINES ->
  u32 (u32 (hash_slot m k) + u32 (i * u32 (hash_stride m k)))
    mod u32 (capacity m) = probe m k i.
Proof.
  intros Hwf Hi. rewrite probe_mod by assumption.
  unfold GPULDA_HASH_MAX_NUM_LINES in Hi.
  destruct (hash_slot_range m k Hwf) as [Hh _].
  destruct (hash_stride_range m k Hwf) as [Hs _].
  destruct Hwf as (_ & Hcap & _).
  assert (0 <= i * hash_stride m k <= 3 * hash_stride m k) by nia.
  rewrite (u32_small (hash_slot m k)), (u32_small (hash_stride m k)) by lia.
  rewrite (u32_small (i * _)), (u32_small (capacity m)) by lia.
  now rewrite u32_small by lia.
Qed.

Lemma key_distance_find (m : t) (k slot : Z) :
  wf m ->
  key_distance m k slot
  = match find (fun i => probe m k i =? slot) [0; 1; 2] with
    | Some i => i
    | None => GPULDA_HASH_MAX_NUM_LINES
    end.
Proof.
  intros Hwf. unfold key_distance. cbn [find]. cbv zeta.
  rewrite !(key_distance_test m k slot) by (assumption || (unfold GPULDA_HASH_MAX_NUM_LINES; lia)).
  reflexivity.
Qed.





(** The capacity that [allocate] computes for a request that is not
    negative. *)
Lemma line_round_down (n : Z) :
  0 <= n ->
  let cap := (n `quot` GPULDA_HASH_LINE_SIZE) * GPULDA_HASH_LINE_SIZE in
  (16 | cap) /\ 0 <= cap /\ cap <= n < cap + 16.
Proof.
  intros Hn cap. subst cap. unfold GPULDA_HASH_LINE_SIZE.
  rewrite Z.quot_div_nonneg by lia.
  pose proof (Z.div_mod n 16 ltac:(lia)) as Hdm.
  pose proof (Z.mod_pos_bound n 16 ltac:(lia)) as Hm.
  pose proof (Z.div_pos n 16 ltac:(lia) ltac:(lia)) as Hq.
  split; [now exists (n / 16) | lia].
Qed.

End ProbeFacts.

(** X3: on a table of [allocate]'s shape, [key_distance] applied to a
    key and to the slot of probe index [i] of that key returns the
    first probe index whose slot is that slot, provided that index is
    0, 1 or 2; it returns 4 otherwise, which happens only for the
    fourth line.  It never returns 3. *)
Theorem X3_key_distance_probe (m : HashMap.t) (k i : Z) :
  HashMap.wf m -> 0 <= i < 4 ->
  let dist := HashMap.key_distance m k (HashMap.probe m k i) in
  (dist = 0 \/ dist = 1 \/ dist = 2 \/ dist = 4) /\
  (dist <> 4 ->
   dist <= i /\ HashMap.probe m k dist = HashMap.probe m k i /\
   forall j, 0 <= j < dist -> HashMap.probe m k j <> HashMap.probe m k i) /\
  (dist = 4 ->
   i = 3 /\ forall j, 0 <= j < 3 -> HashMap.probe m k j <> HashMap.probe m k 3).
Proof.
  intros Hwf Hi dist. subst dist.
  rewrite (ProbeFacts.key_distance_find m k _ Hwf).
  unfold HashMap.GPULDA_HASH_MAX_NUM_LINES. cbn [find].
  destruct (Z.eqb_spec (HashMap.probe m k 0) (HashMap.probe m k i)) as [H0|H0].
  { repeat split; try lia; try assumption. }
  destruct (Z.eqb_spec (HashMap.probe m k 1) (HashMap.probe m k i)) as [H1|H1].
  { assert (i <> 0) by (intros ->; contradiction).
    repeat split; try lia; try assumption.
    intros j Hj. now replace j with 0 by lia. }
  destruct (Z.eqb_spec (HashMap.probe m k 2) (HashMap.probe m k i)) as [H2|H2].
  { assert (i <> 0) by (intros ->; contradiction).
    assert (i <> 1) by (intros ->; contradiction).
    repeat split; try lia; try assumption.
    intros j Hj. assert (j = 0 \/ j = 1) as [-> | ->] by lia; assumption. }
  assert (i = 3).
  { assert (i = 0 \/ i = 1 \/ i = 2 \/ i = 3) as [-> | [-> | [-> | ->]]] by lia;
      try contradiction; reflexivity. }
  subst i. repeat split; try lia.
  intros j Hj.
  assert (j = 0 \/ j = 1 \/ j = 2) as [-> | [-> | ->]] by lia; assumption.
Qed.

Lemma X3_key_distance_probe_witness :
  HashMap.wf Samples.four_lines /\
  let dist := HashMap.key_distance Samples.four_lines 5
                (HashMap.probe Samples.four_lines 5 3) in
  (dist = 0 \/ dist = 1 \/ dist = 2 \/ dist = 4) /\
  (dist <> 4 ->
   dist <= 3 /\
   HashMap.probe Samples.four_lines 5 dist = HashMap.probe Samples.four_lines 5 3 /\
   forall j, 0 <= j < dist ->
             HashMap.probe Samples.four_lines 5 j
             <> HashMap.probe Samples.four_lines 5 3) /\
  (dist = 4 ->
   3 = 3 /\
   forall j, 0 <= j < 3 ->
             HashMap.probe Samples.four_lines 5 j
             <> HashMap.probe Samples.four_lines 5 3).
Proof.
  assert (Hwf : HashMap.wf Samples.four_lines).
  { repeat split; try (vm_compute; congruence). now exists 4. }
  split; [exact Hwf|].
  apply (X3_key_distance_probe Samples.four_lines 5 3 Hwf). lia.
Defined.

(** X4: [allocate] rounds the requested capacity down to a multiple of
    the line size (its comment says up), clears [size] and [rebuild],
    and, when [malloc] succeeds, leaves storage of that many words. *)
Theorem X4_allocate_rounds_down (o : HashMap.alloc) (allocate_capacity : Z) :
  0 <= allocate_capacity ->
  let m := HashMap.allocate o allocate_capacity in
  (16 | HashMap.capacity m) /\
  HashMap.capacity m <= allocate_capacity < HashMap.capacity m + 16 /\
  HashMap.size m = 0 /\ HashMap.rebuild m = 0 /\
  HashMap.data_non_aligned m = HashMap.malloc_ok o /\
  (HashMap.malloc_ok o = true ->
   Z.of_nat (length (HashMap.data m)) = HashMap.capacity m).
Proof.
  intros Hn m. subst m.
  pose proof (ProbeFacts.line_round_down allocate_capacity Hn) as Hround.
  cbv zeta in Hround. destruct Hround as (Hdiv & Hpos & Hround).
  unfold HashMap.allocate.
  cbn [HashMap.capacity HashMap.size HashMap.rebuild HashMap.data
       HashMap.data_non_aligned].
  repeat split; try assumption; try lia.
  intros ->. rewrite length_map, length_seq. now apply Z2Nat.id.
Qed.

Lemma X4_allocate_rounds_down_witness :
  HashMap.capacity (HashMap.allocate Samples.parity_alloc 40) = 32 /\
  HashMap.capacity (HashMap.allocate Samples.parity_alloc 15) = 0.
Proof.
  pose proof (X4_allocate_rounds_down Samples.parity_alloc 40 ltac:(lia)) as H40.
  pose proof (X4_allocate_rounds_down Samples.parity_alloc 15 ltac:(lia)) as H15.
  cbv zeta in H40, H15.
  destruct H40 as ([q Hq] & Hr & _). destruct H15 as ([q' Hq'] & Hr' & _).
  split; lia.
Defined.
(** From here on the word arithmetic is used through the lemmas above. *)
Opaque u32 i32 u64 HashMap.hash_slot HashMap.hash_stride
  HashMap.key_distance HashMap.probe_slot HashMap.key HashMap.value.
(** ** Lookup under the Robin-Hood invariant *)

Section Lookup.
Import HashMap HashMapFacts.

Variable m : t.
Hypothesis Hwf : wf m.

Lemma probe_line (k j : Z) :
  0 <= j < GPULDA_HASH_MAX_NUM_LINES ->
  exists line, read_line (data m) (probe m k j) = Some line.
Proof using Hwf.
  intros Hj. destruct (probe_range m k j Hwf Hj) as (H0 & H16 & _).
  destruct Hwf as (Hlen & _).
  destruct (read_line_Some (data m) (probe m k j) H0 ltac:(lia)) as [line Hl].
  now exists line.
Qed.

Lemma line_member (slot : Z) (line : list Z) (e : Z) :
  read_line (data m) slot = Some line -> In e line ->
  exists q, data m !! q = Some e.
Proof using Type.
  intros Hline Hin. apply list_elem_of_In, list_elem_of_lookup in Hin as [l Hl].
  pose proof (read_line_length _ _ _ Hline) as Hlen.
  pose proof (lookup_lt_Some _ _ _ Hl) as Hlt.
  destruct (read_line_lookup _ _ _ l Hline ltac:(lia)) as (_ & e' & He' & Hd).
  exists (Z.to_nat slot + l)%nat. congruence.
Qed.

(** A key that no live entry carries is reported with count 0, whatever
    line ends the scan. *)
Lemma get2_loop_absent (k : Z) (n : nat) (j : Z) :
  (forall p e, data m !! p = Some e -> e <> empty -> key e <> k) ->
  j + Z.of_nat n = GPULDA_HASH_MAX_NUM_LINES -> 0 <= j ->
  get2_loop m k (hash_slot m k) (hash_stride m k) j n = Some 0.
Proof using Hwf.
  intros Habs. revert j. induction n as [|n IH]; intros j Hsum Hj.
  - reflexivity.
  - destruct (probe_line k j ltac:(lia)) as [line Hline].
    rewrite (get2_loop_step _ _ _ _ _ Hline).
    destruct (find _ line) as [e|] eqn:Hfind.
    + apply find_some in Hfind as [Hin Hk]. apply Z.eqb_eq in Hk.
      destruct (line_member _ _ _ Hline Hin) as [q Hq].
      destruct (Z.eq_dec e empty) as [->|Hlive]; [reflexivity|].
      now destruct (Habs q e Hq Hlive).
    + destruct (existsb _ line); [reflexivity|].
      apply IH; lia.
Qed.


End Lookup.



(** ** Accesses stay inside the storage *)

Section Bounds.
Import HashMap HashMapFacts.

Lemma wf_same (m m' : t) :
  capacity m' = capacity m -> length (data m') = length (data m) ->
  wf m -> wf m'.
Proof using Type.
  intros Hc Hl (H1 & H2 & H3). unfold wf. rewrite Hc, Hl. auto.
Qed.

Lemma allocate_wf (o : alloc) (allocate_capacity : Z) :
  malloc_ok o = true -> 16 <= allocate_capacity < 2 ^ 29 ->
  wf (allocate o allocate_capacity).
Proof using Type.
  intros Hok Hcap. unfold wf, allocate, GPULDA_HASH_LINE_SIZE.
  cbn [capacity data]. rewrite Hok, length_map, length_seq.
  rewrite Z.quot_div_nonneg by lia.
  pose proof (Z.div_mod allocate_capacity 16 ltac:(lia)) as Hdm.
  pose proof (Z.mod_pos_bound allocate_capacity 16 ltac:(lia)) as Hm.
  repeat split; try lia.
  now exists (allocate_capacity / 16).
Qed.

Lemma init_wf (o : alloc) (initial_capacity : Z) :
  malloc_ok o = true -> 16 <= initial_capacity < 2 ^ 29 ->
  wf (snd (init o initial_capacity)).
Proof using Type.
  intros Hok Hcap. pose proof (allocate_wf o _ Hok Hcap) as Hwf.
  unfold init. replace (data_non_aligned (allocate o initial_capacity))
    with true by (symmetry; exact Hok).
  cbn [negb snd]. eapply wf_same; [| |exact Hwf]; cbn [capacity data set_data].
  - reflexivity.
  - now rewrite length_map.
Qed.

Lemma swap_lane (votes : list bool) :
  length votes = 16%nat ->
  Z.land (ballot votes) (half_lane_mask 0) <> 0 ->
  exists n, (n < 16)%nat /\
    (ffs (Z.land (ballot votes) (half_lane_mask 0)) - 1) `rem` half_warp
    = Z.of_nat n.
Proof using Type.
  intros Hlen. rewrite ballot_mask by exact Hlen. intros Hnz.
  destruct (ballot_first votes Hnz) as (n & Hn & Hset & Hlow).
  exists n. split; [lia|].
  rewrite (ffs_ballot votes n) by (assumption || lia).
  unfold half_warp. apply Z.rem_small. lia.
Qed.

Lemma atomicCAS_Some (dat : list Z) (idx compare val : Z) :
  0 <= idx < Z.of_nat (length dat) ->
  exists old dat', atomicCAS dat idx compare val = Some (old, dat') /\
                   length dat' = length dat.
Proof using Type.
  intros Hidx. unfold atomicCAS, load.
  destruct (Z.ltb_spec idx 0); [lia|].
  destruct (lookup_lt_is_Some_2 dat (Z.to_nat idx) ltac:(lia)) as [old Hold].
  rewrite Hold. cbn [mbind option_bind].
  eexists _, _. split; [reflexivity|].
  destruct (old =? compare); [apply length_insert | reflexivity].
Qed.

Variable m : t.
Variable r : regs.
Hypothesis Hwf : wf m.
Hypothesis Hr : regs_ok m r.

Lemma after_swap_ok (dat : list Z) (success : bool) (kf ke nk idx new : Z) :
  length dat = length (data m) ->
  body_post (Some (after_swap (set_data m dat) r success kf ke nk idx new)).
Proof using Hwf Hr.
  intros Hlen. unfold after_swap, body_post. cbv zeta.
  assert (Hwf1 : wf (set_data m dat)) by (now apply (wf_same m)).
  assert (Hr1 : regs_ok (set_data m dat)
                  (if success
                   then {| half_warp_key := key new;
                           diff := i32 (value new);
                           slot := slot r;
                           stride := hash_stride (set_data m dat) (key new);
                           distance := key_distance (set_data m dat) (key new)
                                         (u32 (slot r)) |}
                   else r)).
  { destruct success; [|exact Hr]. destruct Hr as [Hs _].
    split; [exact Hs | apply (hash_stride_range _ _ Hwf1)]. }
  set (r1 := if success then _ else r) in *.
  destruct (success && negb (kf =? 0)); [exact Hwf1|].
  destruct (success && negb (ke =? 0)).
  { now apply (wf_same (set_data m dat)). }
  destruct ((idx =? -1) || (success && negb (nk =? 0))).
  - cbn [distance].
    destruct (i32 (distance r1 + 1) =? GPULDA_HASH_MAX_NUM_LINES).
    + now apply (wf_same (set_data m dat)).
    + split; [exact Hwf1|]. destruct Hr1 as [[Hs Hsd] [Ht Htd]].
      split; cbn [slot stride]; [|split; assumption].
      now apply advance_range.
  - split; assumption.
Qed.

Lemma body_ok : body_post (try_insert2_body m r).
Proof using Hwf Hr.
  destruct Hr as [[Hs Hsd] _]. destruct Hwf as (Hcap & Hrange & Hdiv).
  pose proof (line_fits _ _ Hdiv Hsd Hs) as Hfit.
  destruct (read_line_Some (data m) (slot r) ltac:(lia) ltac:(lia))
    as [line Hline].
  pose proof (read_line_length _ _ _ Hline) as Hlen.
  unfold try_insert2_body. rewrite Hline. cbn [mbind option_bind]. cbv zeta.
  set (kf := Z.land (ballot (map (fun e => key e =? half_warp_key r) line)) _).
  set (ke := Z.land (ballot (map (fun e => e =? empty) line)) _).
  set (nk := Z.land (ballot (map (fun e => key_distance m (key e) (u32 (slot r))
                                           <? distance r) line)) _).
  set (idx := if negb (kf =? 0) then _ else _).
  set (new := if negb (kf =? 0) then _ else _).
  assert (Hidx : idx = -1 \/ exists n, (n < 16)%nat /\ idx = Z.of_nat n).
  { subst idx. destruct (Z.eqb_spec kf 0) as [_|Hkf]; cbn [negb].
    2:{ right. apply swap_lane; [now rewrite length_map | exact Hkf]. }
    destruct (Z.eqb_spec ke 0) as [_|Hke]; cbn [negb].
    2:{ right. apply swap_lane; [now rewrite length_map | exact Hke]. }
    destruct (Z.eqb_spec nk 0) as [_|Hnk]; cbn [negb].
    2:{ right. apply swap_lane; [now rewrite length_map | exact Hnk]. }
    now left. }
  destruct Hidx as [Hidx | (n & Hn & Hidx)].
  - rewrite Hidx at 1. change (-1 =? -1) with true. cbv iota.
    cbn [mbind option_bind]. now apply after_swap_ok.
  - replace (idx =? -1) with false at 1 by (symmetry; apply Z.eqb_neq; lia).
    destruct (atomicCAS_Some (data m) (slot r + idx) (shfl line idx) new
                ltac:(lia)) as (old & dat & Hcas & Hdat).
    rewrite Hcas. cbn [mbind option_bind]. now apply after_swap_ok.
Qed.

End Bounds.

Lemma try_insert2_loop_ok (fuel : nat) (m : HashMap.t) (r : HashMap.regs) :
  HashMap.wf m -> HashMap.regs_ok m r ->
  match HashMap.try_insert2_loop fuel m r with
  | HashMap.Ret m' => HashMap.wf m'
  | HashMap.OutOfBounds => False
  | HashMap.Timeout => True
  end.
Proof.
  revert m r. induction fuel as [|fuel IH]; intros m r Hwf Hr; [exact I|].
  cbn [HashMap.try_insert2_loop].
  pose proof (body_ok m r Hwf Hr) as Hbody. unfold HashMap.body_post in Hbody.
  destruct (HashMap.try_insert2_body m r) as [[m'|[m' r']]|].
  - exact Hbody.
  - destruct Hbody as [Hwf' Hr']. now apply IH.
  - contradiction.
Qed.

Lemma try_insert2_ok (fuel : nat) (m : HashMap.t) (k df : Z) :
  HashMap.wf m ->
  match HashMap.try_insert2 fuel m k df with
  | HashMap.Ret m' => HashMap.wf m'
  | HashMap.OutOfBounds => False
  | HashMap.Timeout => True
  end.
Proof.
  intros Hwf. apply try_insert2_loop_ok; [exact Hwf|].
  split; cbn [HashMap.slot HashMap.stride].
  - now apply HashMapFacts.hash_slot_range.
  - now apply HashMapFacts.hash_stride_range.
Qed.

Lemma get2_loop_in_bounds (m : HashMap.t) (k : Z) (n : nat) (j : Z) :
  HashMap.wf m ->
  j + Z.of_nat n = HashMap.GPULDA_HASH_MAX_NUM_LINES -> 0 <= j ->
  is_Some (HashMap.get2_loop m k (HashMap.hash_slot m k)
             (HashMap.hash_stride m k) j n).
Proof.
  intros Hwf. revert j. induction n as [|n IH]; intros j Hsum Hj.
  - now exists 0.
  - destruct (probe_line m Hwf k j ltac:(lia)) as [line Hline].
    rewrite (HashMapFacts.get2_loop_step _ _ _ _ _ Hline).
    destruct (find _ line); [eauto|].
    destruct (existsb _ line); [eauto|]. apply IH; lia.
Qed.

(** C10, as amended: on a table whose capacity is a multiple of the
    line size, at least one line and below 2^29, with storage of that
    many words (what [allocate] leaves for a request in that range),
    [hash_slot] and [hash_stride] return multiples of 16 below the
    capacity, every index [slot + half_lane_idx] read by [get2] lies in
    [0, capacity), [get2] never leaves the storage, and neither does
    [try_insert2], whose result is again such a table. *)
Theorem C10_accesses_in_bounds (m : HashMap.t) :
  HashMap.wf m ->
  (forall k, (0 <= HashMap.hash_slot m k < HashMap.capacity m /\
              (16 | HashMap.hash_slot m k)) /\
             (0 <= HashMap.hash_stride m k < HashMap.capacity m /\
              (16 | HashMap.hash_stride m k))) /\
  HashMap.in_bounds m /\
  (forall k, is_Some (HashMap.get2 m k)) /\
  (forall fuel k df,
     match HashMap.try_insert2 fuel m k df with
     | HashMap.Ret m' => HashMap.wf m'
     | HashMap.OutOfBounds => False
     | HashMap.Timeout => True
     end).
Proof.
  intros Hwf. split; [|split; [|split]].
  - intros k. split.
    + now apply HashMapFacts.hash_slot_range.
    + now apply HashMapFacts.hash_stride_range.
  - intros k i l Hi Hl. unfold HashMap.half_warp in Hl.
    destruct (HashMapFacts.probe_range m k i Hwf Hi) as (H0 & H16 & _). lia.
  - intros k. unfold HashMap.get2. apply get2_loop_in_bounds; try assumption;
      unfold HashMap.GPULDA_HASH_MAX_NUM_LINES; lia.
  - intros fuel k df. now apply try_insert2_ok.
Qed.

(** The table that [init] builds for a request of 32 slots. *)
Lemma C10_accesses_in_bounds_witness :
  HashMap.wf Samples.two_lines /\
  HashMap.in_bounds Samples.two_lines /\
  is_Some (HashMap.get2 Samples.two_lines 7).
Proof.
  assert (Hwf : HashMap.wf Samples.two_lines).
  { apply init_wf; [reflexivity | lia]. }
  destruct (C10_accesses_in_bounds Samples.two_lines Hwf)
    as (_ & Hb & Hget & _).
  split; [exact Hwf | split; [exact Hb | apply Hget]].
Defined.

(** A request below one line leaves a capacity of 0: no index is inside
    the storage, and the first read of [get2] is outside it. *)
Lemma C10_counterexample :
  HashMap.capacity (snd (HashMap.init Samples.parity_alloc 8)) = 0 /\
  HashMap.get2 (snd (HashMap.init Samples.parity_alloc 8)) 5 = None /\
  ~ HashMap.in_bounds (snd (HashMap.init Samples.parity_alloc 8)).
Proof.
  split; [reflexivity | split; [vm_compute; reflexivity|]].
  intros Hb. specialize (Hb 5 0 0 ltac:(vm_compute; intuition congruence)
                           ltac:(vm_compute; intuition congruence)).
  change (HashMap.capacity (snd (HashMap.init Samples.parity_alloc 8))) with 0
    in Hb.
  lia.
Qed.

(** ** [try_insert2] returns *)

Section Progress.
Import HashMap HashMapFacts.










Variable m : t.
Variable r : regs.
Hypothesis Hwf : wf m.
Hypothesis Hr : regs_ok m r.
Hypothesis Hkey : 0 <= half_warp_key r < 2 ^ 32.
Hypothesis Hdist : 0 <= distance r <= 3 \/ distance r = 5.


End Progress.



(** ** Error status of [init] and [insert2] *)

Section Status.
Import HashMap.



End Status.



(** ** Accumulation, migration and conservation on concrete tables *)

(** C1: two accumulations of +1 on key 5 in a fresh table leave
    [get2 5 = 0], not 2: on a match [with_value] is called with its
    arguments exchanged and writes the old count under key 0.  And an
    insertion that evicts (key 200 into the full table) drops the
    displaced occupant, key 1, instead of carrying it onward. *)
Theorem C1_updates_are_lost :
  let once := Samples.inserted Samples.two_lines [(5, 1)] in
  let twice := Samples.inserted once [(5, 1)] in
  let evicting := Samples.inserted Samples.full [(200, 1)] in
  HashMap.try_insert2 64 Samples.two_lines 5 1 = HashMap.Ret once /\
  HashMap.try_insert2 64 once 5 1 = HashMap.Ret twice /\
  HashMap.get2 once 5 = Some 1 /\
  HashMap.get2 twice 5 = Some 0 /\
  HashMap.data twice !! 16%nat = Some (HashMap.entry 0 1) /\
  HashMap.try_insert2 64 Samples.full 200 1 = HashMap.Ret evicting /\
  HashMap.get2 Samples.full 1 = Some 1 /\
  HashMap.get2 evicting 1 = Some 0.
Proof. vm_compute. repeat split; reflexivity. Qed.



(** ** The table that [init] leaves *)

Section InitFill.
Import HashMap.

Variables blockDim cap : Z.
Hypothesis Hblock : 0 < blockDim.
Hypothesis Hcap : 0 <= cap.
Hypothesis Hsmall : cap + blockDim < 2 ^ 31.

(** The loop reaches the indices below the capacity and no other. *)
Lemma init_indices_In (i : Z) :
  In i (init_indices blockDim cap) <-> 0 <= i < cap.
Proof using Hblock Hcap Hsmall.
  unfold init_indices. rewrite filter_In, in_flat_map.
  assert (Hturns : u32 (u32 cap / blockDim + 1) = cap / blockDim + 1).
  { rewrite (u32_small cap) by lia.
    pose proof (Z.div_pos cap blockDim ltac:(lia) ltac:(lia)).
    pose proof (Z.div_le_upper_bound cap blockDim cap ltac:(lia) ltac:(nia)).
    apply u32_small. lia. }
  rewrite Hturns.
  pose proof (Z.mul_div_le cap blockDim Hblock) as Hdiv.
  pose proof (Z.div_pos cap blockDim ltac:(lia) ltac:(lia)) as Hq.
  assert (Hidx : forall t offset,
             0 <= t < blockDim -> 0 <= offset <= cap / blockDim ->
             i32 (u32 (u32 (offset * blockDim) + t)) = offset * blockDim + t).
  { intros t offset Ht Ho.
    assert (0 <= offset * blockDim <= cap) by nia.
    rewrite (u32_small (offset * blockDim)) by lia.
    rewrite u32_small by lia. apply i32_small. lia. }
  split.
  - intros [(t & Ht & Hin) Hlt]. apply Z.ltb_lt in Hlt.
    apply list_elem_of_In, elem_of_seqZ in Ht.
    apply in_map_iff in Hin as (offset & Heq & Ho).
    apply list_elem_of_In, elem_of_seqZ in Ho.
    rewrite Hidx in Heq by lia. nia.
  - intros Hi. split; [|now apply Z.ltb_lt].
    pose proof (Z.mod_pos_bound i blockDim Hblock) as Hmod.
    pose proof (Z.div_mod i blockDim ltac:(lia)) as Hdm.
    pose proof (Z.div_pos i blockDim ltac:(lia) ltac:(lia)) as Hiq.
    pose proof (Z.div_le_mono i cap blockDim Hblock ltac:(lia)) as Hle.
    exists (i mod blockDim). split.
    + apply list_elem_of_In, elem_of_seqZ. lia.
    + apply in_map_iff. exists (i / blockDim). split.
      * rewrite Hidx by lia. lia.
      * apply list_elem_of_In, elem_of_seqZ. lia.
Qed.

End InitFill.

Section Fill.
Import HashMap.

Lemma fill_in_bounds (l : list Z) (dat : list Z) :
  (forall i, In i l -> 0 <= i < Z.of_nat (length dat)) ->
  fold_left (fun dat i => dat ← dat; store_at dat i empty) l (Some dat)
  = Some (fold_left (fun dat i => <[Z.to_nat i := empty]> dat) l dat).
Proof using Type.
  revert dat. induction l as [|i l IH]; intros dat Hin; cbn [fold_left];
    [reflexivity|].
  cbn [mbind option_bind]. unfold store_at.
  pose proof (Hin i ltac:(now left)) as Hi.
  destruct (Z.ltb_spec i 0); [lia|].
  destruct (Z.leb_spec (Z.of_nat (length dat)) i); [lia|]. cbn [orb].
  apply IH. intros i' Hi'. rewrite length_insert. apply Hin. now right.
Qed.

Lemma fill_lookup (l : list Z) (dat : list Z) (j : nat) :
  fold_left (fun dat i => <[Z.to_nat i := empty]> dat) l dat !! j
  = if existsb (fun i => (Z.to_nat i =? j)%nat) l
    then (fun _ => empty) <$> dat !! j else dat !! j.
Proof using Type.
  revert dat. induction l as [|i l IH]; intros dat; cbn [fold_left existsb];
    [reflexivity|].
  rewrite IH. destruct (Nat.eqb_spec (Z.to_nat i) j) as [<-|Hne]; cbn [orb].
  - destruct (dat !! Z.to_nat i) as [x|] eqn:Hx.
    + rewrite list_lookup_insert_eq by (now apply lookup_lt_Some in Hx).
      now destruct (existsb _ l).
    + rewrite list_insert_ge by (now apply lookup_ge_None in Hx).
      rewrite Hx. now destruct (existsb _ l).
  - now rewrite list_lookup_insert_ne by exact Hne.
Qed.

End Fill.

(** X5: for every size of the block, the loop of [init] that empties
    the table writes [empty()] to every slot below the capacity and
    nowhere else; the table that [init] returns with status 0 has
    [capacity] slots, all of them empty. *)
Theorem X5_init_empties_every_slot (blockDim : Z) (o : HashMap.alloc)
    (initial_capacity : Z) :
  0 < blockDim -> 0 <= initial_capacity ->
  initial_capacity + blockDim < 2 ^ 31 ->
  HashMap.malloc_ok o = true ->
  let m := snd (HashMap.init o initial_capacity) in
  fst (HashMap.init o initial_capacity) = 0 /\
  HashMap.init_fill blockDim (HashMap.allocate o initial_capacity)
  = Some (HashMap.data m) /\
  Z.of_nat (length (HashMap.data m)) = HashMap.capacity m /\
  Forall (fun e => e = HashMap.empty) (HashMap.data m).
Proof.
  intros Hblock Hreq Hsmall Hok m.
  pose proof (ProbeFacts.line_round_down initial_capacity Hreq) as Hround.
  cbv zeta in Hround. destruct Hround as (_ & Hpos & Hround).
  assert (Hlen : Z.of_nat (length (HashMap.data
                                     (HashMap.allocate o initial_capacity)))
                 = HashMap.capacity (HashMap.allocate o initial_capacity)).
  { unfold HashMap.allocate. cbn [HashMap.data HashMap.capacity].
    rewrite Hok, length_map, length_seq. now apply Z2Nat.id. }
  assert (Hcap : HashMap.capacity (HashMap.allocate o initial_capacity)
                 <= initial_capacity) by (cbn [HashMap.allocate HashMap.capacity]; lia).
  set (m0 := HashMap.allocate o initial_capacity) in *.
  assert (Hinit : HashMap.init o initial_capacity
                  = (0, HashMap.set_data m0
                          (map (fun _ => HashMap.empty) (HashMap.data m0)))).
  { unfold HashMap.init. fold m0.
    replace (HashMap.data_non_aligned m0) with true
      by (symmetry; exact Hok).
    reflexivity. }
  subst m. rewrite Hinit. cbn [fst snd HashMap.data HashMap.set_data
                               HashMap.capacity].
  split; [reflexivity | split; [|split]].
  - unfold HashMap.init_fill.
    rewrite fill_in_bounds.
    + f_equal. apply list_eq. intros j. rewrite fill_lookup.
      rewrite list_lookup_fmap.
      destruct (HashMap.data m0 !! j) as [x|] eqn:Hx.
      * apply lookup_lt_Some in Hx.
        replace (existsb _ _) with true; [reflexivity|].
        symmetry. apply existsb_exists. exists (Z.of_nat j). split.
        -- apply (init_indices_In blockDim (HashMap.capacity m0));
             try assumption; lia.
        -- apply Nat.eqb_eq. lia.
      * now destruct (existsb _ _).
    + intros i Hi.
      apply (init_indices_In blockDim (HashMap.capacity m0)) in Hi;
        try assumption; lia.
  - now rewrite length_map.
  - apply Forall_forall. intros e He.
    apply list_elem_of_In, in_map_iff in He as (x & <- & _). reflexivity.
Qed.

(** A request of 40 slots, a block of 32 threads. *)
Lemma X5_init_empties_every_slot_witness :
  let m := snd (HashMap.init Samples.parity_alloc 40) in
  fst (HashMap.init Samples.parity_alloc 40) = 0 /\
  HashMap.init_fill 32 (HashMap.allocate Samples.parity_alloc 40)
  = Some (HashMap.data m) /\
  Z.of_nat (length (HashMap.data m)) = HashMap.capacity m /\
  Forall (fun e => e = HashMap.empty) (HashMap.data m).
Proof.
  apply (X5_init_empties_every_slot 32 Samples.parity_alloc 40).
  - lia.
  - lia.
  - lia.
  - reflexivity.
Defined.

Section Fresh.
Import HashMap HashMapFacts.

Lemma all_empty_robin_hood (m : t) :
  Forall (fun e => e = empty) (data m) -> robin_hood m = true.
Proof using Type.
  intros Hall. unfold robin_hood. apply forallb_forall. intros p Hp.
  apply in_seq in Hp.
  destruct (lookup_lt_is_Some_2 (data m) p ltac:(lia)) as [e He].
  rewrite (nth_lookup_Some _ _ _ _ He).
  rewrite Forall_forall in Hall.
  rewrite (Hall e) by (eapply list_elem_of_lookup_2; exact He).
  reflexivity.
Qed.

Lemma all_empty_live_sum (dat : list Z) :
  Forall (fun e => e = empty) dat ->
  fold_right (fun e acc => (if live e then i32 (value e) else 0) + acc) 0 dat
  = 0.
Proof using Type.
  induction 1 as [|e dat -> _ IH]; cbn [fold_right]; [reflexivity|].
  rewrite IH. reflexivity.
Qed.

End Fresh.

(** X6: the table that [init] returns for a request of at least one
    line is a table of [allocate]'s shape with no entry: it satisfies
    the Robin-Hood invariant, its counts add up to 0, [size] and
    [rebuild] are clear, and [get2] returns 0 for every key. *)
Theorem X6_fresh_table_is_empty (o : HashMap.alloc) (initial_capacity k : Z) :
  HashMap.malloc_ok o = true -> 16 <= initial_capacity < 2 ^ 29 ->
  let m := snd (HashMap.init o initial_capacity) in
  HashMap.wf m /\ HashMap.robin_hood m = true /\ HashMap.live_sum m = 0 /\
  HashMap.size m = 0 /\ HashMap.rebuild m = 0 /\
  HashMap.get2 m k = Some 0.
Proof.
  intros Hok Hcap m.
  assert (Hwf : HashMap.wf m) by now apply init_wf.
  assert (Hinit : m = HashMap.set_data (HashMap.allocate o initial_capacity)
                        (map (fun _ => HashMap.empty)
                             (HashMap.data (HashMap.allocate o initial_capacity)))).
  { subst m. unfold HashMap.init.
    replace (HashMap.data_non_aligned (HashMap.allocate o initial_capacity))
      with true by (symmetry; exact Hok).
    reflexivity. }
  assert (Hall : Forall (fun e => e = HashMap.empty) (HashMap.data m)).
  { rewrite Hinit. cbn [HashMap.data HashMap.set_data].
    apply Forall_forall. intros e He.
    apply list_elem_of_In, in_map_iff in He as (x & <- & _). reflexivity. }
  split; [exact Hwf | split; [|split; [|split; [|split]]]].
  - now apply all_empty_robin_hood.
  - unfold HashMap.live_sum. now apply all_empty_live_sum.
  - rewrite Hinit. reflexivity.
  - rewrite Hinit. reflexivity.
  - unfold HashMap.get2. apply get2_loop_absent; try assumption.
    + intros p e Hp Hlive. exfalso. apply Hlive.
      rewrite Forall_forall in Hall. apply Hall.
      eapply list_elem_of_lookup_2. exact Hp.
    + unfold HashMap.GPULDA_HASH_MAX_NUM_LINES. lia.
    + lia.
Qed.

Lemma X6_fresh_table_is_empty_witness :
  let m := snd (HashMap.init Samples.parity_alloc 32) in
  HashMap.wf m /\ HashMap.robin_hood m = true /\ HashMap.live_sum m = 0 /\
  HashMap.size m = 0 /\ HashMap.rebuild m = 0 /\
  HashMap.get2 m 4294967295 = Some 0.
Proof.
  apply (X6_fresh_table_is_empty Samples.parity_alloc 32 4294967295).
  - reflexivity.
  - lia.
Defined.

(** ** Insertion of a key that the table does not hold *)

Section LineUpdates.
Import HashMap HashMapFacts.





End LineUpdates.

Section NewKey.
Import HashMap HashMapFacts ProbeFacts.

Variable m : t.
Variables k df : Z.
Variable line : list Z.
Hypothesis Hwf : wf m.
Hypothesis Hk : 0 <= k < 2 ^ 32.
Hypothesis Hline : read_line (data m) (hash_slot m k) = Some line.
Hypothesis Hnew : forall e, In e line -> key e <> k.
Hypothesis Hroom : In empty line.


End NewKey.

Section Counts.
Import HashMap.


End Counts.

Section NewKeyLookup.
Import HashMap HashMapFacts ProbeFacts.

Variable m : t.
Variables k : Z.
Variable line : list Z.
Variable n : nat.
Variable x : Z.
Variable sz : Z.
Hypothesis Hwf : wf m.
Hypothesis Hline : read_line (data m) (hash_slot m k) = Some line.
Hypothesis Hnew : forall e, In e line -> key e <> k.
Hypothesis Hn : (n < 16)%nat.
Hypothesis Hx : key x = k.

Variable m' : t.
Hypothesis Hm' :
  m' = set_size
         (set_data m (<[(Z.to_nat (hash_slot m k) + n)%nat := x]> (data m)))
         sz.




End NewKeyLookup.



Section Invariant.
Import HashMap HashMapFacts ProbeFacts.






Variable m : t.
Variables k : Z.
Variable line : list Z.
Variable n : nat.
Variable x : Z.
Variable sz : Z.
Hypothesis Hwf : wf m.
Hypothesis Hrh : robin_hood m = true.
Hypothesis Hline : read_line (data m) (hash_slot m k) = Some line.
Hypothesis Hnew : forall e, In e line -> key e <> k.
Hypothesis Hn : (n < 16)%nat.
Hypothesis Hlane : line !! n = Some empty.
Hypothesis Hx : key x = k.
Variable m' : t.
Hypothesis Hm' :
  m' = set_size
         (set_data m (<[(Z.to_nat (hash_slot m k) + n)%nat := x]> (data m)))
         sz.







End Invariant.



(** ** What [try_insert2] leaves alone *)

Section Frame.
Import HashMap HashMapFacts.


Lemma atomicCAS_length (dat : list Z) (idx compare val old : Z)
    (dat' : list Z) :
  atomicCAS dat idx compare val = Some (old, dat') ->
  length dat' = length dat.
Proof using Type.
  unfold atomicCAS. destruct (load dat idx) as [w|]; [|discriminate].
  cbn [mbind option_bind]. intros Heq. injection Heq as _ <-.
  destruct (w =? compare); [apply length_insert | reflexivity].
Qed.

Lemma after_swap_frame (m1 : t) (r : regs) (success : bool)
    (kf ke nk idx new : Z) :
  match after_swap m1 r success kf ke nk idx new with
  | inl m' =>
    same_hash m1 m' /\ data m' = data m1 /\
    data_non_aligned m' = data_non_aligned m1 /\
    (size m' = size m1 \/ size m' = i32 (size m1 + 1)) /\
    (rebuild m' = rebuild m1 \/ rebuild m' = Z.lor (rebuild m1) 1)
  | inr (m', _) => m' = m1
  end.
Proof using Type.
  unfold after_swap. cbv zeta.
  destruct (success && negb (kf =? 0)).
  { repeat split; auto. }
  destruct (success && negb (ke =? 0)).
  { repeat split; auto. }
  destruct ((idx =? -1) || (success && negb (nk =? 0))); [|reflexivity].
  destruct (_ =? GPULDA_HASH_MAX_NUM_LINES); [|reflexivity].
  repeat split; auto.
Qed.


Lemma body_frame (m : t) (r : regs) :
  match try_insert2_body m r with
  | Some (inl m') =>
    same_hash m m' /\ length (data m') = length (data m) /\
    data_non_aligned m' = data_non_aligned m /\
    (size m' = size m \/ size m' = i32 (size m + 1)) /\
    (rebuild m' = rebuild m \/ rebuild m' = Z.lor (rebuild m) 1)
  | Some (inr (m', _)) =>
    same_hash m m' /\ length (data m') = length (data m) /\
    data_non_aligned m' = data_non_aligned m /\
    size m' = size m /\ rebuild m' = rebuild m
  | None => True
  end.
Proof using Type.
  unfold try_insert2_body.
  destruct (read_line (data m) (slot r)) as [line|]; [|exact I].
  cbn [mbind option_bind]. cbv zeta.
  set (kf := Z.land (ballot (map (fun e => key e =? half_warp_key r) line)) _).
  set (ke := Z.land (ballot (map (fun e => e =? empty) line)) _).
  set (nk := Z.land (ballot (map (fun e => key_distance m (key e) (u32 (slot r))
                                           <? distance r) line)) _).
  set (idx := if negb (kf =? 0) then _ else _).
  set (new := if negb (kf =? 0) then _ else _).
  assert (Hcas : forall success dat,
             length dat = length (data m) ->
             match after_swap (set_data m dat) r success kf ke nk idx new with
             | inl m' =>
               same_hash m m' /\ length (data m') = length (data m) /\
               data_non_aligned m' = data_non_aligned m /\
               (size m' = size m \/ size m' = i32 (size m + 1)) /\
               (rebuild m' = rebuild m \/ rebuild m' = Z.lor (rebuild m) 1)
             | inr (m', _) =>
               same_hash m m' /\ length (data m') = length (data m) /\
               data_non_aligned m' = data_non_aligned m /\
               size m' = size m /\ rebuild m' = rebuild m
             end).
  { intros success dat Hlen.
    pose proof (after_swap_frame (set_data m dat) r success kf ke nk idx new)
      as Hframe.
    destruct (after_swap _ r success kf ke nk idx new) as [m'|[m' r']].
    - destruct Hframe as ((Hc & Ha & Hb & Hcc & Hd) & Hdat & Hnon & Hsz & Hreb).
      rewrite Hdat. repeat split; assumption.
    - subst m'. repeat split; assumption. }
  destruct (idx =? -1).
  - cbn [mbind option_bind]. now apply Hcas.
  - destruct (atomicCAS (data m) (slot r + idx) (shfl line idx) new)
      as [[old dat]|] eqn:Hswap; [|exact I].
    cbn [mbind option_bind]. apply Hcas.
    now apply atomicCAS_length in Hswap.
Qed.

End Frame.

Lemma try_insert2_loop_frame (fuel : nat) (m : HashMap.t) (r : HashMap.regs)
    (m' : HashMap.t) :
  HashMap.try_insert2_loop fuel m r = HashMap.Ret m' ->
  HashMap.same_hash m m' /\
  length (HashMap.data m') = length (HashMap.data m) /\
  HashMap.data_non_aligned m' = HashMap.data_non_aligned m /\
  (HashMap.size m' = HashMap.size m \/
   HashMap.size m' = i32 (HashMap.size m + 1)) /\
  (HashMap.rebuild m' = HashMap.rebuild m \/
   HashMap.rebuild m' = Z.lor (HashMap.rebuild m) 1).
Proof.
  revert m r. induction fuel as [|fuel IH]; intros m r Hrun;
    cbn [HashMap.try_insert2_loop] in Hrun; [discriminate|].
  pose proof (body_frame m r) as Hbody.
  destruct (HashMap.try_insert2_body m r) as [[m1|[m1 r1]]|];
    [| |discriminate].
  - injection Hrun as <-. exact Hbody.
  - destruct Hbody as ((Hc & Ha & Hb & Hcc & Hd) & Hlen & Hnon & Hsz & Hreb).
    destruct (IH m1 r1 Hrun)
      as ((Hc' & Ha' & Hb' & Hcc' & Hd') & Hlen' & Hnon' & Hsz' & Hreb').
    unfold HashMap.same_hash.
    rewrite Hc', Ha', Hb', Hcc', Hd', Hlen', Hnon'.
    rewrite Hsz in Hsz'. rewrite Hreb in Hreb'.
    repeat split; assumption.
Qed.

(** X9: [try_insert2] never changes the capacity, the four hash
    parameters, the pointer of the allocation or the number of words of
    the storage; it adds at most one to [size], and it never clears
    [rebuild]. *)
Theorem X9_try_insert2_frame (fuel : nat) (m : HashMap.t) (k df : Z)
    (m' : HashMap.t) :
  HashMap.try_insert2 fuel m k df = HashMap.Ret m' ->
  HashMap.capacity m' = HashMap.capacity m /\
  (HashMap.a m', HashMap.b m', HashMap.c m', HashMap.d m')
  = (HashMap.a m, HashMap.b m, HashMap.c m, HashMap.d m) /\
  HashMap.data_non_aligned m' = HashMap.data_non_aligned m /\
  length (HashMap.data m') = length (HashMap.data m) /\
  (HashMap.size m' = HashMap.size m \/
   HashMap.size m' = i32 (HashMap.size m + 1)) /\
  (HashMap.rebuild m' = HashMap.rebuild m \/
   HashMap.rebuild m' = Z.lor (HashMap.rebuild m) 1).
Proof.
  intros Hrun. unfold HashMap.try_insert2 in Hrun.
  destruct (try_insert2_loop_frame _ _ _ _ Hrun)
    as ((Hc & Ha & Hb & Hcc & Hd) & Hlen & Hnon & Hsz & Hreb).
  rewrite Ha, Hb, Hcc, Hd. repeat split; assumption.
Qed.

(** Key 200 into the full table of two lines: an eviction, then the
    probe sequence runs out. *)
Lemma X9_try_insert2_frame_witness :
  let m' := Samples.inserted Samples.full [(200, 1)] in
  HashMap.capacity m' = HashMap.capacity Samples.full /\
  (HashMap.a m', HashMap.b m', HashMap.c m', HashMap.d m')
  = (HashMap.a Samples.full, HashMap.b Samples.full,
     HashMap.c Samples.full, HashMap.d Samples.full) /\
  HashMap.data_non_aligned m' = HashMap.data_non_aligned Samples.full /\
  length (HashMap.data m') = length (HashMap.data Samples.full) /\
  (HashMap.size m' = HashMap.size Samples.full \/
   HashMap.size m' = i32 (HashMap.size Samples.full + 1)) /\
  (HashMap.rebuild m' = HashMap.rebuild Samples.full \/
   HashMap.rebuild m' = Z.lor (HashMap.rebuild Samples.full) 1).
Proof.
  apply (X9_try_insert2_frame 64 Samples.full 200 1).
  vm_compute. reflexivity.
Defined.
(** ** Growth of the table *)

Section Growth.
Import HashMap.




End Growth.

Section ResizeLoop.
Import HashMap.




End ResizeLoop.



(** ** A probe sequence with no room *)

Section NoRoom.
Import HashMap HashMapFacts ProbeFacts.


(** Stepping the slot by the stride, as [try_insert2] does, follows the
    probe sequence of [get2]. *)
Lemma probe_succ (m : t) (k j : Z) :
  wf m -> 0 <= j < 3 ->
  i32 (probe m k j + hash_stride m k) `rem` capacity m = probe m k (j + 1).
Proof using Type.
  intros Hwf Hj.
  destruct (probe_range m k j Hwf ltac:(unfold GPULDA_HASH_MAX_NUM_LINES; lia))
    as (Hp0 & Hp16 & _).
  destruct (hash_stride_range m k Hwf) as [Hs _].
  pose proof Hwf as (_ & Hcap & _).
  rewrite i32_small by lia. rewrite Z.rem_mod_nonneg by lia.
  rewrite !probe_mod
    by (assumption || (unfold GPULDA_HASH_MAX_NUM_LINES; lia)).
  rewrite Zplus_mod_idemp_l. f_equal. lia.
Qed.


Variable m : t.
Variables k df : Z.
Hypothesis Hwf : wf m.
Hypothesis Hfull :
  forall j, 0 <= j < 4 ->
    exists line,
      read_line (data m) (probe m k j) = Some line /\
      Forall (fun e => key e <> k /\ e <> empty /\
                       j <= key_distance m (key e) (probe m k j)) line.



End NoRoom.



(** ** What a lookup can return *)

Section LookupSound.
Import HashMap HashMapFacts.


End LookupSound.



(** X13: the slot that [try_insert2] steps from line to line,
    [(slot + stride) % capacity], runs through the slots that [get2]
    computes as [(initial_slot + i * stride) % capacity], starting from
    [hash_slot]; with a stride of 0 all four probes fall on the first
    line. *)
Theorem X13_probe_sequences_agree (m : HashMap.t) (k : Z) :
  HashMap.wf m ->
  HashMap.probe m k 0 = HashMap.hash_slot m k /\
  (forall j, 0 <= j < 3 ->
     i32 (HashMap.probe m k j + HashMap.hash_stride m k)
       `rem` HashMap.capacity m
     = HashMap.probe m k (j + 1)) /\
  (HashMap.hash_stride m k = 0 ->
   forall j, 0 <= j < 4 -> HashMap.probe m k j = HashMap.hash_slot m k).
Proof.
  intros Hwf. split; [|split].
  - now apply ProbeFacts.probe_zero.
  - intros j Hj. now apply probe_succ.
  - intros Hstride j Hj.
    rewrite ProbeFacts.probe_mod
      by (assumption || (unfold HashMap.GPULDA_HASH_MAX_NUM_LINES; lia)).
    rewrite Hstride, Z.mul_0_r, Z.add_0_r.
    destruct (HashMapFacts.hash_slot_range m k Hwf) as [Hslot _].
    now apply Z.mod_small.
Qed.

Lemma X13_probe_sequences_agree_witness :
  HashMap.probe Samples.four_lines 6 0 = HashMap.hash_slot Samples.four_lines 6 /\
  (forall j, 0 <= j < 3 ->
     i32 (HashMap.probe Samples.four_lines 6 j
          + HashMap.hash_stride Samples.four_lines 6)
       `rem` HashMap.capacity Samples.four_lines
     = HashMap.probe Samples.four_lines 6 (j + 1)) /\
  (HashMap.hash_stride Samples.four_lines 6 = 0 ->
   forall j, 0 <= j < 4 ->
     HashMap.probe Samples.four_lines 6 j = HashMap.hash_slot Samples.four_lines 6).
Proof.
  apply (X13_probe_sequences_agree Samples.four_lines 6).
  apply init_wf; [reflexivity | lia].
Defined.

(** ** The offsets of the documents *)

Section DocumentOffsets.
Import Topics.

Lemma prefix_sum_S (l : list Z) (k : nat) :
  prefix_sum l (S k) = prefix_sum l k + nth k l 0.
Proof using Type.
  unfold prefix_sum. revert l. induction k as [|k IH]; intros [|x l];
    cbn [take sumZ fold_right nth]; try lia.
  - rewrite take_0. cbn. lia.
  - fold (sumZ (take (S k) l)). rewrite IH. unfold sumZ. lia.
Qed.

Lemma prefix_sum_all (l : list Z) (k : nat) :
  (length l <= k)%nat -> prefix_sum l k = sumZ l.
Proof using Type. intros H. unfold prefix_sum. now rewrite take_ge. Qed.

Lemma ExclusiveScan_from_spec (xs : list Z) (acc : Z) :
  length (fst (ExclusiveScan_from acc xs)) = length xs /\
  u32 (snd (ExclusiveScan_from acc xs)) = u32 (acc + sumZ xs) /\
  forall j, (j < length xs)%nat ->
    u32 (nth j (fst (ExclusiveScan_from acc xs)) 0)
    = u32 (acc + prefix_sum xs j).
Proof using Type.
  revert acc. induction xs as [|x xs IH]; intros acc; cbn [ExclusiveScan_from].
  - cbn. repeat split; [f_equal; lia | intros j Hj; lia].
  - specialize (IH (i32 (acc + x))).
    destruct (ExclusiveScan_from (i32 (acc + x)) xs) as [out total].
    cbn [fst snd length] in *. destruct IH as (Hlen & Htot & Hnth).
    split; [lia | split].
    + rewrite Htot. cbn [sumZ fold_right]. fold (sumZ xs).
      replace (acc + (x + sumZ xs)) with ((acc + x) + sumZ xs) by lia.
      apply u32_add_congr; [apply u32_i32 | reflexivity].
    + intros [|j] Hj; cbn [nth].
      * unfold prefix_sum. rewrite take_0. cbn. f_equal. lia.
      * rewrite Hnth by lia. unfold prefix_sum. cbn [take sumZ fold_right].
        fold (sumZ (take j xs)).
        replace (acc + (x + sumZ (take j xs)))
          with ((acc + x) + sumZ (take j xs)) by lia.
        apply u32_add_congr; [apply u32_i32 | reflexivity].
Qed.

Lemma fold_store_length (ws : list (Z * Z)) (dst : list Z) :
  length (fold_left store ws dst) = length dst.
Proof using Type.
  revert dst. induction ws as [|w ws IH]; intros dst; cbn [fold_left];
    [reflexivity|].
  rewrite IH. unfold store. apply length_insert.
Qed.

Lemma fold_store_other (ws : list (Z * Z)) (dst : list Z) (i : nat) :
  (forall w, In w ws -> Z.to_nat (fst w) <> i) ->
  fold_left store ws dst !! i = dst !! i.
Proof using Type.
  revert dst. induction ws as [|w ws IH]; intros dst Hws; cbn [fold_left];
    [reflexivity|].
  rewrite IH by (intros w' Hw'; apply Hws; now right).
  unfold store. apply list_lookup_insert_ne. apply Hws. now left.
Qed.

Lemma fold_store_at (ws : list (Z * Z)) (dst : list Z) (w : Z * Z) :
  NoDup (map (fun w => Z.to_nat (fst w)) ws) -> In w ws ->
  (Z.to_nat (fst w) < length dst)%nat ->
  fold_left store ws dst !! Z.to_nat (fst w) = Some (snd w).
Proof using Type.
  revert dst. induction ws as [|w' ws IH]; intros dst Hnd Hin Hlt;
    [destruct Hin|].
  cbn [map] in Hnd. apply NoDup_cons in Hnd as [Hnotin Hnd].
  cbn [fold_left]. destruct Hin as [->|Hin].
  - rewrite fold_store_other.
    + unfold store. now apply list_lookup_insert_eq.
    + intros w'' Hw'' Heq. apply Hnotin. rewrite <- Heq.
      apply list_elem_of_In. now apply (in_map (fun w => Z.to_nat (fst w))).
  - apply IH; try assumption. unfold store. now rewrite length_insert.
Qed.

Lemma NoDup_bool_filter (f : Z -> bool) (l : list Z) :
  NoDup l -> NoDup (List.filter f l).
Proof using Type.
  induction 1 as [|x l Hx Hnd IH]; cbn [List.filter]; [constructor|].
  destruct (f x); [|exact IH].
  constructor; [|exact IH].
  intros Hin. apply Hx. apply list_elem_of_In in Hin.
  apply filter_In in Hin as [Hin _]. now apply list_elem_of_In.
Qed.

Variable blockDim : Z.
Variable src : list Z.
Hypothesis Hblock : 0 < blockDim.
Hypothesis Hsize : Z.of_nat (length src) + blockDim < 2 ^ 31.

(** The index handled by a thread in the turn that starts at [base]. *)
Lemma thread_index (offset : Z) (base : nat) (t : Z) :
  Z.of_nat base = offset * blockDim ->
  (base <= length src)%nat -> 0 <= t < blockDim ->
  i32 (u32 (t + u32 (offset * blockDim))) = Z.of_nat base + t.
Proof using Hblock Hsize.
  intros Hbase Hle Ht. rewrite <- Hbase.
  rewrite (u32_small (Z.of_nat base)) by lia.
  rewrite u32_small by lia. rewrite i32_small by lia. lia.
Qed.

Lemma thread_input (offset : Z) (base : nat) (j : nat) :
  Z.of_nat base = offset * blockDim ->
  (base <= length src)%nat -> Z.of_nat j < blockDim ->
  let idx := fun threadIdx => i32 (u32 (threadIdx + u32 (offset * blockDim))) in
  let inputs :=
    map (fun threadIdx =>
           if u32 (idx threadIdx) <? Z.of_nat (length src)
           then i32 (nth (Z.to_nat (idx threadIdx)) src 0) else 0)
        (seqZ 0 blockDim) in
  u32 (nth j inputs 0) = u32 (nth (base + j) src 0).
Proof using Hblock Hsize.
  intros Hbase Hle Hj idx inputs. subst inputs.
  erewrite nth_lookup_Some.
  2:{ rewrite list_lookup_fmap, lookup_seqZ_lt by lia. reflexivity. }
  subst idx. cbv beta.
  rewrite (thread_index offset base) by (assumption || lia).
  rewrite (u32_small (Z.of_nat base + _)) by lia.
  replace (Z.to_nat (Z.of_nat base + (0 + Z.of_nat j))) with (base + j)%nat
    by lia.
  destruct (Z.ltb_spec (Z.of_nat base + (0 + Z.of_nat j))
                       (Z.of_nat (length src))).
  - apply u32_i32.
  - now rewrite nth_overflow by lia.
Qed.

Lemma inputs_prefix (offset : Z) (base : nat) (j : nat) :
  Z.of_nat base = offset * blockDim ->
  (base <= length src)%nat -> Z.of_nat j <= blockDim ->
  let idx := fun threadIdx => i32 (u32 (threadIdx + u32 (offset * blockDim))) in
  let inputs :=
    map (fun threadIdx =>
           if u32 (idx threadIdx) <? Z.of_nat (length src)
           then i32 (nth (Z.to_nat (idx threadIdx)) src 0) else 0)
        (seqZ 0 blockDim) in
  u32 (prefix_sum inputs j + prefix_sum src base)
  = u32 (prefix_sum src (base + j)).
Proof using Hblock Hsize.
  intros Hbase Hle Hj idx inputs. induction j as [|j IH].
  - unfold prefix_sum at 1. rewrite take_0. cbn [sumZ fold_right].
    now rewrite Nat.add_0_r.
  - rewrite prefix_sum_S.
    replace (base + S j)%nat with (S (base + j)) by lia.
    rewrite prefix_sum_S.
    replace (prefix_sum inputs j + nth j inputs 0 + prefix_sum src base)
      with ((prefix_sum inputs j + prefix_sum src base) + nth j inputs 0)
      by lia.
    apply u32_add_congr; [apply IH; lia|].
    apply (thread_input offset base j); assumption || lia.
Qed.

(** One turn of the loop extends the part of [d_idx] that holds prefix
    sums by one block. *)
Lemma compute_d_idx_pass_spec (offset : Z) (base : nat)
    (initial_value : Z) (dst : list Z) :
  Z.of_nat base = offset * blockDim ->
  (base <= length src)%nat -> (length src <= length dst)%nat ->
  u32 initial_value = u32 (prefix_sum src base) ->
  (forall i, (i < base)%nat -> (i < length src)%nat ->
             dst !! i = Some (u32 (prefix_sum src i))) ->
  let st := compute_d_idx_pass blockDim (Z.of_nat (length src)) src
              (initial_value, dst) offset in
  u32 (fst st) = u32 (prefix_sum src (base + Z.to_nat blockDim)) /\
  length (snd st) = length dst /\
  (forall i, (i < base + Z.to_nat blockDim)%nat -> (i < length src)%nat ->
             snd st !! i = Some (u32 (prefix_sum src i))).
Proof using Hblock Hsize.
  intros Hbase Hle Hdst Hiv Hdone. unfold compute_d_idx_pass.
  set (idx := fun threadIdx => i32 (u32 (threadIdx + u32 (offset * blockDim)))).
  set (inputs := map _ (seqZ 0 blockDim)).
  assert (Hlen_in : length inputs = Z.to_nat blockDim)
    by (subst inputs; now rewrite length_map, length_seqZ).
  pose proof (ExclusiveScan_from_spec inputs 0) as (Hlen & Htot & Hnth).
  fold (ExclusiveScan inputs) in Hlen, Htot, Hnth.
  destruct (ExclusiveScan inputs) as [scanned total_value].
  cbn [fst snd] in *.
  set (ws := map _ (List.filter _ (seqZ 0 blockDim))).
  assert (Hidx : forall t, In t (seqZ 0 blockDim) ->
                           0 <= t < blockDim /\ idx t = Z.of_nat base + t).
  { intros t Ht. apply list_elem_of_In, elem_of_seqZ in Ht.
    split; [lia|]. apply thread_index; assumption || lia. }
  split; [|split].
  - rewrite u32_i32.
    rewrite <- (inputs_prefix offset base (Z.to_nat blockDim))
      by (assumption || lia).
    fold idx. fold inputs.
    apply u32_add_congr; [|exact Hiv].
    rewrite Htot. rewrite (prefix_sum_all inputs) by lia. f_equal; lia.
  - apply fold_store_length.
  - intros i Hi Hsrc. destruct (Nat.lt_ge_cases i base) as [Hlow|Hhigh].
    + rewrite fold_store_other; [now apply Hdone|].
      intros w Hw. subst ws. apply in_map_iff in Hw as (t & <- & Ht).
      apply filter_In in Ht as [Ht _]. change (Z.to_nat (idx t) <> i).
      destruct (Hidx t Ht) as [Hrange ->]. lia.
    + set (t := Z.of_nat (i - base)).
      assert (Ht : In t (seqZ 0 blockDim)).
      { apply list_elem_of_In, elem_of_seqZ. subst t. lia. }
      destruct (Hidx t Ht) as [Hrange Hit].
      assert (Hw : In (idx t, u32 (i32 (nth (Z.to_nat t) scanned 0
                                        + initial_value))) ws).
      { subst ws. apply in_map_iff. exists t. split; [reflexivity|].
        apply filter_In. split; [exact Ht|].
        apply Z.ltb_lt. change (u32 (idx t) < Z.of_nat (length src)).
        rewrite Hit. rewrite u32_small by lia. subst t. lia. }
      assert (Hnd : NoDup (map (fun w => Z.to_nat (fst w)) ws)).
      { subst ws. rewrite map_map. cbn [fst].
        apply NoDup_fmap_2_strong; [|apply NoDup_bool_filter, NoDup_seqZ].
        intros x y Hx Hy Hxy.
        apply list_elem_of_In, filter_In in Hx as [Hx _].
        apply list_elem_of_In, filter_In in Hy as [Hy _].
        destruct (Hidx x Hx) as [Hxr Hxi]. destruct (Hidx y Hy) as [Hyr Hyi].
        change (Z.to_nat (idx x) = Z.to_nat (idx y)) in Hxy.
        rewrite Hxi, Hyi in Hxy. lia. }
      pose proof (fold_store_at ws dst _ Hnd Hw) as Hat. cbn [fst snd] in Hat.
      replace (Z.to_nat (idx t)) with i in Hat by (rewrite Hit; subst t; lia).
      rewrite Hat by lia.
      f_equal. rewrite u32_i32.
      transitivity (u32 (prefix_sum src (base + (i - base))));
        [|do 2 f_equal; lia].
      rewrite <- (inputs_prefix offset base (i - base))
        by (assumption || lia).
      fold idx. fold inputs.
      apply u32_add_congr; [|exact Hiv].
      subst t. rewrite Nat2Z.id. rewrite Hnth by lia. f_equal; lia.
Qed.

(** The loop of [compute_d_idx] after [c] turns. *)
Lemma compute_d_idx_loop (c : nat) (dst : list Z) :
  (length src <= length dst)%nat ->
  Z.of_nat c <= Z.of_nat (length src) / blockDim + 1 ->
  let st := fold_left (compute_d_idx_pass blockDim (Z.of_nat (length src)) src)
                      (seqZ 0 (Z.of_nat c)) (0, dst) in
  u32 (fst st) = u32 (prefix_sum src (c * Z.to_nat blockDim)) /\
  length (snd st) = length dst /\
  (forall i, (i < c * Z.to_nat blockDim)%nat -> (i < length src)%nat ->
             snd st !! i = Some (u32 (prefix_sum src i))).
Proof using Hblock Hsize.
  intros Hdst. induction c as [|c IH]; intros Hc.
  - cbn [fold_left seqZ fst snd]. change (seqZ 0 (Z.of_nat 0)) with (@nil Z).
    cbn [fold_left fst snd]. repeat split. intros i Hi. lia.
  - rewrite seqZ_S, fold_left_app. cbn [fold_left].
    destruct (IH ltac:(lia)) as (Hiv & Hlen & Hdone). clear IH.
    destruct (fold_left _ (seqZ 0 (Z.of_nat c)) (0, dst)) as [iv d].
    cbn [fst snd] in Hiv, Hlen, Hdone.
    pose proof (Z.mul_div_le (Z.of_nat (length src)) blockDim Hblock) as Hdiv.
    assert (Hbase : Z.of_nat (c * Z.to_nat blockDim) = (0 + Z.of_nat c) * blockDim).
    { rewrite Nat2Z.inj_mul, Z2Nat.id by lia. lia. }
    assert (Hle : (c * Z.to_nat blockDim <= length src)%nat) by nia.
    destruct (compute_d_idx_pass_spec (0 + Z.of_nat c) (c * Z.to_nat blockDim)
                iv d Hbase Hle ltac:(lia) Hiv Hdone) as (Hiv' & Hlen' & Hdone').
    replace (S c * Z.to_nat blockDim)%nat
      with (c * Z.to_nat blockDim + Z.to_nat blockDim)%nat by lia.
    repeat split; [exact Hiv' | lia | exact Hdone'].
Qed.

End DocumentOffsets.

Lemma prefix_sum_bounds (l : list Z) (i : nat) :
  Forall (fun x => 0 <= x) l ->
  0 <= Topics.prefix_sum l i <= Topics.sumZ l.
Proof.
  unfold Topics.prefix_sum. intros Hl. revert i.
  induction Hl as [|x l Hx Hl IH]; intros [|i];
    cbn [take Topics.sumZ fold_right]; try lia.
  - specialize (IH 0%nat). rewrite take_0 in IH. cbn in IH.
    unfold Topics.sumZ in IH. lia.
  - specialize (IH i). unfold Topics.sumZ in IH. lia.
Qed.

(** C7: [compute_d_idx] leaves [d_len] as it was and writes to
    [d_idx[i]], for every [i < n_docs], the sum of [d_len[0]] to
    [d_len[i-1]] as a 32-bit word, whatever the size of the block; the
    word is the sum itself when the lengths add up to less than 2^32. *)
Theorem C7_compute_d_idx_prefix_sum (blockDim : Z) (mem : Topics.arrays)
    (i : nat) :
  0 < blockDim ->
  Z.of_nat (length (Topics.d_len mem)) + blockDim < 2 ^ 31 ->
  (length (Topics.d_len mem) <= length (Topics.d_idx mem))%nat ->
  (i < length (Topics.d_len mem))%nat ->
  let out := Topics.compute_d_idx blockDim mem
               (Z.of_nat (length (Topics.d_len mem))) in
  Topics.d_len out = Topics.d_len mem /\
  Topics.d_idx out !! i = Some (u32 (Topics.prefix_sum (Topics.d_len mem) i)) /\
  (Forall (fun x => 0 <= x) (Topics.d_len mem) ->
   Topics.sumZ (Topics.d_len mem) < 2 ^ 32 ->
   Topics.d_idx out !! i = Some (Topics.prefix_sum (Topics.d_len mem) i)).
Proof.
  intros Hblock Hsize Hdst Hi out. subst out. unfold Topics.compute_d_idx.
  cbn [Topics.d_len Topics.d_idx].
  set (n := Z.of_nat (length (Topics.d_len mem))) in *.
  assert (Hturns : 0 <= n / blockDim) by (apply Z.div_pos; lia).
  pose proof (compute_d_idx_loop blockDim (Topics.d_len mem) Hblock Hsize
                (Z.to_nat (n / blockDim + 1)) (Topics.d_idx mem) Hdst
                ltac:(fold n; lia)) as (_ & _ & Hdone).
  rewrite Z2Nat.id in Hdone by lia. fold n in Hdone.
  assert (Hcover : (i < Z.to_nat (n / blockDim + 1) * Z.to_nat blockDim)%nat).
  { pose proof (Z.mod_pos_bound n blockDim Hblock) as Hmod.
    pose proof (Z.div_mod n blockDim ltac:(lia)) as Hdm.
    apply Nat2Z.inj_lt. rewrite Nat2Z.inj_mul, !Z2Nat.id by lia. nia. }
  specialize (Hdone i Hcover Hi).
  split; [reflexivity | split; [exact Hdone|]].
  intros Hpos Htotal. rewrite Hdone. f_equal. apply u32_small.
  pose proof (prefix_sum_bounds _ i Hpos). lia.
Qed.

(** Five documents, a block of two threads: three turns of the loop. *)
Lemma C7_compute_d_idx_prefix_sum_witness :
  Topics.d_idx
    (Topics.compute_d_idx 2
       {| Topics.d_len := [3; 1; 4; 1; 5]; Topics.d_idx := [9; 9; 9; 9; 9] |}
       5) !! 3%nat
  = Some 8.
Proof.
  apply (C7_compute_d_idx_prefix_sum 2
           {| Topics.d_len := [3; 1; 4; 1; 5];
              Topics.d_idx := [9; 9; 9; 9; 9] |} 3).
  - lia.
  - cbn. lia.
  - cbn. lia.
  - cbn. lia.
  - repeat constructor; lia.
  - cbn. lia.
Defined.

(** ** The whole of [d_idx] after [compute_d_idx] *)

Section OffsetsFrame.
Import Topics.

Variable blockDim : Z.
Variable src : list Z.
Hypothesis Hblock : 0 < blockDim.
Hypothesis Hsize : Z.of_nat (length src) + blockDim < 2 ^ 31.

(** One turn of the loop writes below [n_docs] only. *)
Lemma compute_d_idx_pass_frame (offset : Z) (base : nat)
    (initial_value : Z) (dst : list Z) (i : nat) :
  Z.of_nat base = offset * blockDim ->
  (base <= length src)%nat -> (length src <= i)%nat ->
  snd (compute_d_idx_pass blockDim (Z.of_nat (length src)) src
         (initial_value, dst) offset) !! i
  = dst !! i.
Proof using Hblock Hsize.
  intros Hbase Hle Hi. unfold compute_d_idx_pass.
  destruct (ExclusiveScan _) as [scanned total_value]. cbn [snd].
  apply fold_store_other. intros w Hw.
  apply in_map_iff in Hw as (t & <- & Ht).
  apply filter_In in Ht as [Ht Hcond]. cbn [fst].
  apply list_elem_of_In, elem_of_seqZ in Ht.
  rewrite (thread_index blockDim src Hblock Hsize offset base t) in *
    by (assumption || lia).
  apply Z.ltb_lt in Hcond. rewrite u32_small in Hcond by lia. lia.
Qed.

Lemma compute_d_idx_loop_frame (c : nat) (dst : list Z) (i : nat) :
  Z.of_nat c <= Z.of_nat (length src) / blockDim + 1 ->
  (length src <= i)%nat ->
  snd (fold_left (compute_d_idx_pass blockDim (Z.of_nat (length src)) src)
                 (seqZ 0 (Z.of_nat c)) (0, dst)) !! i
  = dst !! i.
Proof using Hblock Hsize.
  intros Hc Hi. induction c as [|c IH].
  - reflexivity.
  - rewrite seqZ_S, fold_left_app. cbn [fold_left].
    specialize (IH ltac:(lia)).
    destruct (fold_left _ (seqZ 0 (Z.of_nat c)) (0, dst)) as [iv d].
    cbn [snd] in IH. rewrite <- IH.
    pose proof (Z.mul_div_le (Z.of_nat (length src)) blockDim Hblock) as Hdiv.
    apply (compute_d_idx_pass_frame (0 + Z.of_nat c) (c * Z.to_nat blockDim)).
    + rewrite Nat2Z.inj_mul, Z2Nat.id by lia. lia.
    + nia.
    + exact Hi.
Qed.

(** The array [d_idx] after the kernel. *)
Lemma compute_d_idx_result (dst : list Z) :
  (length src <= length dst)%nat ->
  snd (fold_left (compute_d_idx_pass blockDim (Z.of_nat (length src)) src)
                 (seqZ 0 (Z.of_nat (length src) / blockDim + 1)) (0, dst))
  = map (fun i => u32 (prefix_sum src i)) (seq 0 (length src))
      ++ drop (length src) dst.
Proof using Hblock Hsize.
  intros Hdst.
  set (n := Z.of_nat (length src)).
  assert (Hturns : 0 <= n / blockDim) by (apply Z.div_pos; lia).
  pose proof (compute_d_idx_loop blockDim src Hblock Hsize
                (Z.to_nat (n / blockDim + 1)) dst Hdst
                ltac:(fold n; lia)) as (_ & Hlen & Hdone).
  pose proof (compute_d_idx_loop_frame (Z.to_nat (n / blockDim + 1)) dst)
    as Hframe.
  rewrite Z2Nat.id in Hdone, Hlen, Hframe by lia. fold n in Hdone, Hlen, Hframe.
  apply list_eq. intros i.
  destruct (Nat.lt_ge_cases i (length src)) as [Hi|Hi].
  - rewrite Hdone; [|
      pose proof (Z.mod_pos_bound n blockDim Hblock) as Hmod;
      pose proof (Z.div_mod n blockDim ltac:(lia)) as Hdm;
      apply Nat2Z.inj_lt; rewrite Nat2Z.inj_mul, !Z2Nat.id by lia; nia
      | exact Hi].
    rewrite lookup_app_l by (now rewrite length_map, length_seq).
    rewrite list_lookup_fmap, lookup_seq_lt by exact Hi. reflexivity.
  - rewrite Hframe by (lia || exact Hi).
    rewrite lookup_app_r by (now rewrite length_map, length_seq).
    rewrite length_map, length_seq, lookup_drop. f_equal. lia.
Qed.

End OffsetsFrame.

(** X14: [compute_d_idx] leaves in [d_idx] the prefix sums of the
    lengths, as 32-bit words, in the first [n_docs] places and what was
    there before in the others; with [n_docs = 0] it writes nothing. *)
Theorem X14_compute_d_idx_result (blockDim : Z) (mem : Topics.arrays) :
  0 < blockDim ->
  Z.of_nat (length (Topics.d_len mem)) + blockDim < 2 ^ 31 ->
  (length (Topics.d_len mem) <= length (Topics.d_idx mem))%nat ->
  Topics.d_idx (Topics.compute_d_idx blockDim mem
                  (Z.of_nat (length (Topics.d_len mem))))
  = map (fun i => u32 (Topics.prefix_sum (Topics.d_len mem) i))
        (seq 0 (length (Topics.d_len mem)))
      ++ drop (length (Topics.d_len mem)) (Topics.d_idx mem).
Proof.
  intros Hblock Hsize Hdst. unfold Topics.compute_d_idx. cbn [Topics.d_idx].
  now apply compute_d_idx_result.
Qed.

Lemma X14_compute_d_idx_result_witness :
  Topics.d_idx
    (Topics.compute_d_idx 2
       {| Topics.d_len := [3; 1; 4]; Topics.d_idx := [9; 9; 9; 9; 9] |}
       (Z.of_nat (length [3; 1; 4])))
  = map (fun i => u32 (Topics.prefix_sum [3; 1; 4] i)) (seq 0 (length [3; 1; 4]))
      ++ drop (length [3; 1; 4]) [9; 9; 9; 9; 9].
Proof.
  apply (X14_compute_d_idx_result 2
           {| Topics.d_len := [3; 1; 4]; Topics.d_idx := [9; 9; 9; 9; 9] |}).
  - lia.
  - cbn. lia.
  - cbn. lia.
Defined.

(** X15: the arrays that [compute_d_idx] leaves do not depend on the
    size of the block that runs it. *)
Theorem X15_compute_d_idx_any_block (blockDim blockDim' : Z)
    (mem : Topics.arrays) :
  0 < blockDim -> 0 < blockDim' ->
  Z.of_nat (length (Topics.d_len mem)) + blockDim < 2 ^ 31 ->
  Z.of_nat (length (Topics.d_len mem)) + blockDim' < 2 ^ 31 ->
  (length (Topics.d_len mem) <= length (Topics.d_idx mem))%nat ->
  Topics.compute_d_idx blockDim mem (Z.of_nat (length (Topics.d_len mem)))
  = Topics.compute_d_idx blockDim' mem (Z.of_nat (length (Topics.d_len mem))).
Proof.
  intros Hblock Hblock' Hsize Hsize' Hdst. unfold Topics.compute_d_idx.
  f_equal.
  rewrite (compute_d_idx_result blockDim _ Hblock Hsize _ Hdst).
  now rewrite (compute_d_idx_result blockDim' _ Hblock' Hsize' _ Hdst).
Qed.

Lemma X15_compute_d_idx_any_block_witness :
  Topics.compute_d_idx 2
    {| Topics.d_len := [3; 1; 4; 1; 5]; Topics.d_idx := [9; 9; 9; 9; 9; 9] |}
    (Z.of_nat (length [3; 1; 4; 1; 5]))
  = Topics.compute_d_idx 128
      {| Topics.d_len := [3; 1; 4; 1; 5]; Topics.d_idx := [9; 9; 9; 9; 9; 9] |}
      (Z.of_nat (length [3; 1; 4; 1; 5])).
Proof.
  apply (X15_compute_d_idx_any_block 2 128
           {| Topics.d_len := [3; 1; 4; 1; 5];
              Topics.d_idx := [9; 9; 9; 9; 9; 9] |}).
  - lia.
  - lia.
  - cbn. lia.
  - cbn. lia.
  - cbn. lia.
Defined.

(** ** The column sums *)

Section ColumnSums.
Import PolyaUrn.
Local Open Scope Q_scope.













Variables (nwarps K blockIdx : nat) (Phi : list Q).
Hypothesis Hwarps : (0 < nwarps)%nat.



End ColumnSums.




(** ** The kernels of the refresh pass *)

Section Refresh.
Import PolyaUrn.
Local Open Scope Q_scope.






End Refresh.



Section RowLoops.
Import PolyaUrn.
Local Open Scope Q_scope.



End RowLoops.







(** ** The branch of the draw *)

Section Draw.
Import HashMap MixtureSampler.
Local Open Scope Q_scope.

Variable rnd : Q -> Q.
Hypothesis rnd_monotone : forall x y, x <= y -> rnd x <= rnd y.

Lemma rnd_compat (x y : Q) : x == y -> rnd x == rnd y.
Proof using rnd_monotone.
  intros Hxy. apply Qle_antisym; apply rnd_monotone; rewrite Hxy;
    apply Qle_refl.
Qed.

Lemma draw_branch_exact (u1 sigma_a sigma_b : Q) :
  draw_branch rnd u1 sigma_a sigma_b = exact_term <->
  sigma_a < rnd (u1 * rnd (sigma_a + sigma_b)).
Proof using Type.
  unfold draw_branch.
  destruct (Qlt_le_dec sigma_a (rnd (u1 * rnd (sigma_a + sigma_b))))
    as [Hlt|Hle].
  - tauto.
  - split; [discriminate|]. intros Hlt.
    destruct (Qlt_not_le _ _ Hlt Hle).
Qed.

Lemma compute_product_cumsum_no_live (Phi_word : Z -> Q) (m : t) :
  Forall (fun e => live e = false) (data m) ->
  compute_product_cumsum rnd Phi_word m = 0.
Proof using Type.
  unfold compute_product_cumsum. generalize 0.
  induction (data m) as [|e dat IH]; intros acc Hdead; cbn [fold_left];
    [reflexivity|].
  apply Forall_cons in Hdead as [He Hdead]. rewrite He. cbn [andb].
  now apply IH.
Qed.

Lemma no_mass_no_exact_term (u1 sigma_a : Q) :
  0 <= sigma_a -> rnd sigma_a == sigma_a -> 0 < u1 -> u1 <= 1 ->
  ~ sigma_a < rnd (u1 * rnd (sigma_a + 0)).
Proof using rnd_monotone.
  intros Hpos Hrep Hu0 Hu1. apply Qle_not_lt.
  assert (Hsum : rnd (sigma_a + 0) == sigma_a).
  { rewrite <- Hrep at 2. apply rnd_compat. ring. }
  rewrite <- Hrep at 2. apply rnd_monotone. rewrite Hsum.
  rewrite <- (Qmult_1_l sigma_a) at 2.
  apply Qmult_le_compat_r; assumption.
Qed.

End Draw.

(** C5: the exact-term branch is taken exactly when
    [u1 * (sigma_a[word] + sigma_b) > sigma_a[word]]; when the table has
    no live entry [sigma_b] is 0 and, for a uniform variate in (0, 1]
    and a mass [sigma_a[word]] that is not negative, the inequality
    fails, so that the draw uses the alias table.  Each floating point
    operation may round, by any monotone rounding that leaves
    [sigma_a[word]] as it is. *)
Theorem C5_exact_term_branch (rnd : Q -> Q) (Phi_word : Z -> Q)
    (m : HashMap.t) (u1 sigma_a : Q) :
  (forall x y, (x <= y)%Q -> (rnd x <= rnd y)%Q) ->
  (forall sigma_b,
     MixtureSampler.draw_branch rnd u1 sigma_a sigma_b
     = MixtureSampler.exact_term <->
     (sigma_a < rnd (u1 * rnd (sigma_a + sigma_b)))%Q) /\
  (Forall (fun e => HashMap.live e = false) (HashMap.data m) ->
   (0 <= sigma_a)%Q -> (rnd sigma_a == sigma_a)%Q ->
   (0 < u1)%Q -> (u1 <= 1)%Q ->
   let sigma_b := MixtureSampler.compute_product_cumsum rnd Phi_word m in
   sigma_b = 0%Q /\
   ~ (sigma_a < rnd (u1 * rnd (sigma_a + sigma_b)))%Q /\
   MixtureSampler.draw_branch rnd u1 sigma_a sigma_b
   = MixtureSampler.alias_table).
Proof.
  intros Hmono. split.
  - intros sigma_b. apply draw_branch_exact.
  - intros Hdead Hpos Hrep Hu0 Hu1 sigma_b. subst sigma_b.
    rewrite (compute_product_cumsum_no_live rnd Phi_word m Hdead).
    pose proof (no_mass_no_exact_term rnd Hmono u1 sigma_a Hpos Hrep Hu0 Hu1)
      as Hfails.
    repeat split; [exact Hfails|].
    destruct (MixtureSampler.draw_branch rnd u1 sigma_a 0) eqn:Hbranch;
      [|reflexivity].
    apply draw_branch_exact in Hbranch. contradiction.
Qed.

(** The table that [init] leaves, exact arithmetic, [u1 = 1] and a mass
    of 1/2. *)
Lemma C5_exact_term_branch_witness :
  MixtureSampler.draw_branch (fun x => x) 1 (1#2)
    (MixtureSampler.compute_product_cumsum (fun x => x) (fun _ => 1%Q)
       Samples.two_lines)
  = MixtureSampler.alias_table.
Proof.
  apply (proj2 (C5_exact_term_branch (fun x => x) (fun _ => 1%Q)
                  Samples.two_lines 1 (1#2) (fun x y H => H))).
  - vm_compute. repeat constructor.
  - discriminate.
  - reflexivity.
  - reflexivity.
  - discriminate.
Defined.

(** ** The queue-pair push *)

(** For a predicate that is 0 or 1 the vote of a lane for the second
    queue is its being active: the complement of either is non-zero. *)
Lemma second_ballot_counts_everyone (l : Poisson.lane) :
  Poisson.conditional l = 0 \/ Poisson.conditional l = 1 ->
  Poisson.active l
  && negb (i32 (Z.lnot (Poisson.conditional l)) =? 0)
  = Poisson.active l.
Proof.
  intros [-> | ->]; destruct (Poisson.active l); reflexivity.
Qed.

(** Whenever the predicates are 0 or 1 and lane 0 takes part, the end
    of the second queue advances by the number of active lanes, whatever
    their predicates. *)
Lemma second_queue_end (lanes : list Poisson.lane) (qs : Poisson.queues) :
  (length lanes <= 32)%nat ->
  (forall l, In l lanes ->
             Poisson.conditional l = 0 \/ Poisson.conditional l = 1) ->
  (exists l rest, lanes = l :: rest /\ Poisson.active l = true) ->
  Poisson.q2_end (Poisson.warp_queue_pair_push lanes qs)
  = i32 (Poisson.q2_end qs + count_votes (map Poisson.active lanes)).
Proof.
  intros Hlen Hbool (l0 & rest & -> & Hactive).
  unfold Poisson.warp_queue_pair_push. cbn [Poisson.q2_end]. rewrite Hactive.
  rewrite popc_ballot by now rewrite length_map.
  do 3 f_equal. apply map_ext_in. intros l Hl.
  now apply second_ballot_counts_everyone, Hbool.
Qed.

(** C9: with lanes 0 and 1 taking part, lane 0 with a true predicate and
    lane 1 with a false one, the first queue receives 10 at its start
    and its counter advances by 1; the second queue has one writer, but
    its counter advances by 2 and the value 11 lands at offset 1, past
    an unwritten slot: [__ballot(~conditional)] votes with the bitwise
    complement, which is non-zero for both lanes. *)
Theorem C9_second_queue_overcounts :
  Poisson.warp_queue_pair_push Poisson.two_lanes Poisson.fresh_queues
  = {| Poisson.q1 := [10; 0; 0; 0]; Poisson.q2 := [0; 11; 0; 0];
       Poisson.q1_end := 1; Poisson.q2_end := 2 |} /\
  Poisson.writers_q2 Poisson.two_lanes = 1.
Proof. vm_compute. split; reflexivity. Qed.

(** ** The first queue *)

(** X20: [warp_lane_offset] returns the number of lanes below the
    calling lane that are set in [lane_bits]; in particular the word
    of [warp_lane_id_bits] for a lane counts 1 for the lanes above it
    and 0 for the others. *)
Theorem X20_warp_lane_offset (threadIdx : Z) :
  (forall votes : list bool,
     (length votes <= 32)%nat ->
     Poisson.warp_lane_offset threadIdx (ballot votes)
     = count_votes (take (Z.to_nat (threadIdx mod 32)) votes)) /\
  (forall lane_idx,
     0 <= lane_idx < 32 ->
     Poisson.warp_lane_offset threadIdx (Poisson.warp_lane_id_bits lane_idx)
     = if lane_idx <? threadIdx mod 32 then 1 else 0).
Proof.
  split; [intros votes; apply warp_lane_offset_count|].
  intros lane_idx Hlane.
  pose proof (Z.mod_pos_bound threadIdx 32 ltac:(lia)) as Hthread.
  rewrite <- (Z2Nat.id lane_idx) at 1 by lia.
  rewrite lane_bit_ballot by lia.
  rewrite warp_lane_offset_count
    by (rewrite length_app, length_replicate; cbn [length]; lia).
  destruct (Z.ltb_spec lane_idx (threadIdx mod 32)) as [Hlt|Hge].
  - rewrite take_ge
      by (rewrite length_app, length_replicate; cbn [length]; lia).
    rewrite count_votes_app, count_votes_none. reflexivity.
  - rewrite take_app_le by (rewrite length_replicate; lia).
    rewrite take_replicate. apply count_votes_none.
Qed.

Section QueuePush.
Import Poisson.

Variable lanes : list lane.
Variable qs : queues.
Hypothesis Hlen : (length lanes <= 32)%nat.

Hypothesis Hstart : 0 <= q1_end qs.
Hypothesis Hroom :
  q1_end qs + Z.of_nat (length (pushed_q1 lanes)) <= Z.of_nat (length (q1 qs)).
Hypothesis Hsmall : Z.of_nat (length (q1 qs)) < 2 ^ 31.

(** The first queue after the lanes [rest], which follow the lanes
    [pre], have written. *)
Lemma first_queue_writes (b2 s2 : Z) (pre rest : list lane) (q2' : list Z) :
  lanes = pre ++ rest ->
  fst (fold_left (lane_write
                    (ballot (map (fun l => active l
                                           && negb (conditional l =? 0))
                                 lanes))
                    b2 (q1_end qs) s2)
         (combine (seqZ (Z.of_nat (length pre)) (32 - Z.of_nat (length pre)))
                  rest)
         (take (Z.to_nat (q1_end qs)) (q1 qs)
            ++ map value (pushed_q1 pre)
            ++ drop (Z.to_nat (q1_end qs) + length (pushed_q1 pre)) (q1 qs),
          q2'))
  = take (Z.to_nat (q1_end qs)) (q1 qs)
      ++ map value (pushed_q1 lanes)
      ++ drop (Z.to_nat (q1_end qs) + length (pushed_q1 lanes)) (q1 qs).
Proof using Hlen Hstart Hroom Hsmall.
  set (vote1 := fun l => active l && negb (conditional l =? 0)).
  assert (Hfilter : forall ls, pushed_q1 ls = List.filter vote1 ls)
    by reflexivity.
  revert pre q2'. induction rest as [|l rest IH]; intros pre q2' Hsplit.
  - rewrite app_nil_r in Hsplit. subst pre.
    now destruct (seqZ _ _).
  - assert (Hpre : (length pre < 32)%nat).
    { rewrite Hsplit, length_app in Hlen. cbn [length] in Hlen. lia. }
    rewrite seqZ_cons by lia. cbn [combine fold_left].
    replace (Z.succ (Z.of_nat (length pre))) with (Z.of_nat (length (pre ++ [l])))
      by (rewrite length_app; cbn [length]; lia).
    replace (Z.pred (32 - Z.of_nat (length pre)))
      with (32 - Z.of_nat (length (pre ++ [l])))
      by (rewrite length_app; cbn [length]; lia).
    assert (Hsplit' : lanes = (pre ++ [l]) ++ rest)
      by (rewrite <- app_assoc; exact Hsplit).
    unfold lane_write at 2. cbn [fst snd].
    assert (Hpushed_q1 : pushed_q1 (pre ++ [l])
                      = pushed_q1 pre ++ (if vote1 l then [l] else [])).
    { rewrite !Hfilter, List.filter_app. cbn [List.filter].
      now destruct (vote1 l). }
    destruct (active l) eqn:Hact.
    2:{ assert (Hv : vote1 l = false) by (unfold vote1; now rewrite Hact).
        rewrite Hv, app_nil_r in Hpushed_q1. rewrite <- Hpushed_q1.
        now apply IH. }
    destruct (negb (conditional l =? 0)) eqn:Hcond.
    2:{ assert (Hv : vote1 l = false)
          by (unfold vote1; now rewrite Hact, Hcond).
        rewrite Hv, app_nil_r in Hpushed_q1. rewrite <- Hpushed_q1.
        cbn [fst snd]. now apply IH. }
    assert (Hv : vote1 l = true) by (unfold vote1; now rewrite Hact, Hcond).
    rewrite Hv in Hpushed_q1. cbn [fst snd].
    assert (Hoff : warp_lane_offset (Z.of_nat (length pre))
                     (ballot (map vote1 lanes))
                   = Z.of_nat (length (pushed_q1 pre))).
    { rewrite warp_lane_offset_count by now rewrite length_map.
      rewrite Z.mod_small, Nat2Z.id by lia.
      rewrite <- fmap_take, count_votes_filter, (Hfilter pre). do 2 f_equal.
      rewrite Hsplit. now rewrite take_app_length. }
    rewrite Hoff.
    assert (Hmore : (length (pushed_q1 pre) < length (pushed_q1 lanes))%nat).
    { assert (Happ : pushed_q1 lanes
                     = pushed_q1 (pre ++ [l]) ++ pushed_q1 rest).
      { rewrite Hsplit' at 1. apply List.filter_app. }
      rewrite Happ, Hpushed_q1, !length_app.
      cbn [length]. lia. }
    rewrite i32_small by lia. unfold queue_wraparound.
    set (s := Z.to_nat (q1_end qs)) in *.
    set (c := length (pushed_q1 pre)) in *.
    replace (Z.to_nat (q1_end qs + Z.of_nat c)) with (s + c)%nat by lia.
    assert (Hdrop : exists y, drop (s + c) (q1 qs)
                              = y :: drop (s + S c) (q1 qs)).
    { destruct (lookup_lt_is_Some_2 (q1 qs) (s + c) ltac:(lia)) as [y Hy].
      exists y. rewrite (drop_S _ _ _ Hy). now rewrite Nat.add_succ_r. }
    destruct Hdrop as [y Hdrop]. rewrite Hdrop.
    replace (<[(s + c)%nat := value l]>
               (take s (q1 qs) ++ map value (pushed_q1 pre)
                  ++ y :: drop (s + S c) (q1 qs)))
      with (take s (q1 qs) ++ map value (pushed_q1 (pre ++ [l]))
              ++ drop (s + length (pushed_q1 (pre ++ [l]))) (q1 qs)).
    + now apply IH.
    + rewrite Hpushed_q1, map_app, length_app. cbn [map length].
      fold c. replace (c + 1)%nat with (S c) by lia.
      rewrite insert_app_r_alt by (rewrite length_take; lia).
      rewrite length_take.
      replace (s + c - s `min` length (q1 qs))%nat with c by lia.
      rewrite insert_app_r_alt by (rewrite length_map; fold c; lia).
      rewrite length_map. fold c. rewrite Nat.sub_diag. cbn.
      now rewrite <- app_assoc.
Qed.

End QueuePush.

(** X21: when lane 0 takes part and the first queue has room, the values
    of the lanes whose predicate is true are written to the first queue
    without gaps from its end onwards, in lane order, the rest of the
    queue is left as it was, and the end of the queue advances by the
    number of those lanes. *)
Theorem X21_first_queue_is_compacted (lanes : list Poisson.lane)
    (qs : Poisson.queues) :
  (length lanes <= 32)%nat ->
  (exists l rest, lanes = l :: rest /\ Poisson.active l = true) ->
  0 <= Poisson.q1_end qs ->
  Poisson.q1_end qs + Z.of_nat (length (Poisson.pushed_q1 lanes))
  <= Z.of_nat (length (Poisson.q1 qs)) ->
  Z.of_nat (length (Poisson.q1 qs)) < 2 ^ 31 ->
  let out := Poisson.warp_queue_pair_push lanes qs in
  Poisson.q1_end out
  = Poisson.q1_end qs + Z.of_nat (length (Poisson.pushed_q1 lanes)) /\
  Poisson.q1 out
  = take (Z.to_nat (Poisson.q1_end qs)) (Poisson.q1 qs)
      ++ map Poisson.value (Poisson.pushed_q1 lanes)
      ++ drop (Z.to_nat (Poisson.q1_end qs)
               + length (Poisson.pushed_q1 lanes)) (Poisson.q1 qs).
Proof.
  intros Hlen (l0 & rest & Hlanes & Hactive) Hstart Hroom Hsmall out.
  subst out. unfold Poisson.warp_queue_pair_push.
  cbn [Poisson.q1_end Poisson.q1]. split.
  - rewrite Hlanes at 1. rewrite Hactive.
    rewrite popc_ballot by now rewrite length_map.
    rewrite count_votes_filter. fold (Poisson.pushed_q1 lanes).
    apply i32_small. lia.
  - pose proof (first_queue_writes lanes qs Hlen Hstart Hroom Hsmall
                  (ballot (map (fun l => Poisson.active l
                                          && negb (i32 (Z.lnot (Poisson.conditional l)) =? 0))
                               lanes))
                  (Poisson.q2_end qs) [] lanes (Poisson.q2 qs) eq_refl)
      as Hwrites.
    cbn [length Poisson.pushed_q1 List.filter map app] in Hwrites.
    rewrite Nat.add_0_r, take_drop in Hwrites.
    exact Hwrites.
Qed.

(** Lanes 0, 2 and 3 push 10, 12 and 13 with a true predicate, lane 1
    pushes 11 with a false one; the first queue holds one value
    already. *)
Lemma X21_first_queue_is_compacted_witness :
  let lanes :=
    [ {| Poisson.active := true; Poisson.value := 10; Poisson.conditional := 1 |};
      {| Poisson.active := true; Poisson.value := 11; Poisson.conditional := 0 |};
      {| Poisson.active := true; Poisson.value := 12; Poisson.conditional := 1 |};
      {| Poisson.active := true; Poisson.value := 13; Poisson.conditional := 5 |} ] in
  let qs := {| Poisson.q1 := [7; 0; 0; 0; 0]; Poisson.q2 := [0; 0; 0; 0; 0];
               Poisson.q1_end := 1; Poisson.q2_end := 0 |} in
  Poisson.q1_end (Poisson.warp_queue_pair_push lanes qs) = 4 /\
  Poisson.q1 (Poisson.warp_queue_pair_push lanes qs) = [7; 10; 12; 13; 0].
Proof.
  apply (X21_first_queue_is_compacted
           [ {| Poisson.active := true; Poisson.value := 10; Poisson.conditional := 1 |};
             {| Poisson.active := true; Poisson.value := 11; Poisson.conditional := 0 |};
             {| Poisson.active := true; Poisson.value := 12; Poisson.conditional := 1 |};
             {| Poisson.active := true; Poisson.value := 13; Poisson.conditional := 5 |} ]
           {| Poisson.q1 := [7; 0; 0; 0; 0]; Poisson.q2 := [0; 0; 0; 0; 0];
              Poisson.q1_end := 1; Poisson.q2_end := 0 |}).
  - cbn. lia.
  - eexists _, _. split; reflexivity.
  - cbn. lia.
  - cbn. lia.
  - cbn. lia.
Defined.
